(** * ShadowTree: the commit engine of the Fabric renderer

    A shallow embedding of [ReactCommon/fabric/uimanager/ShadowTree.cpp].

    Shadow nodes are heap objects reached through [shared_ptr]s: the model
    keeps them in a store indexed by addresses, so that pointer identity,
    sharing between snapshots and in-place writes ([layout], [sealRecursive])
    are what they are in the C++ code.  Calls on event emitters and on the
    delegate are recorded in a trace.  The two mutexes only delimit critical
    sections; the model is the sequential behaviour of one caller. *)

From Stdlib Require Import PrimFloat ZArith.
From stdpp Require Import gmap list.

(** ** Layout primitives *)

(** [Float] of the graphics layer is an IEEE double; [==] on it is the IEEE
    comparison (not reflexive on NaN, and equating the two zeros). *)
Definition Float : Type := PrimFloat.float.

Module Graphics.

Record Point : Type := { x : Float; y : Float }.
Record Size : Type := { width : Float; height : Float }.
Record Rect : Type := { origin : Point; size : Size }.

Definition Point_eqb (a b : Point) : bool :=
  PrimFloat.eqb (x a) (x b) && PrimFloat.eqb (y a) (y b).

Definition Size_eqb (a b : Size) : bool :=
  PrimFloat.eqb (width a) (width b) && PrimFloat.eqb (height a) (height b).

Definition Rect_eqb (a b : Rect) : bool :=
  Point_eqb (origin a) (origin b) && Size_eqb (size a) (size b).

End Graphics.

(** Modelled from the spec: the layout-metrics result of a node.  Its
    declaration is in the core headers, outside this translation unit, which
    reads only [frame] and compares two results with [operator==]; the model
    keeps the frame and compares it component by component. *)
Record LayoutMetrics : Type := { frame : Graphics.Rect }.

Definition LayoutMetrics_eqb (a b : LayoutMetrics) : bool :=
  Graphics.Rect_eqb (frame a) (frame b).

Definition EmptyLayoutMetrics : LayoutMetrics :=
  {| frame := {| Graphics.origin := {| Graphics.x := 0%float; Graphics.y := 0%float |};
                 Graphics.size := {| Graphics.width := 0%float; Graphics.height := 0%float |} |} |}.

(** Modelled from the spec: the layout inputs a root carries in its props.
    Both are passed through by this file and never inspected. *)
Record LayoutConstraints : Type :=
  { minimumSize : Graphics.Size; maximumSize : Graphics.Size }.
Record LayoutContext : Type := { absolutePosition : Graphics.Point }.

(** ** Props and event emitters: polymorphic objects behind shared pointers *)

Definition Tag : Type := Z.  (* int *)
Definition SurfaceId : Type := Z.

Record ViewProps : Type := { onLayout : bool; viewPropsRest : Z }.

Record RootProps : Type :=
  { rootViewProps : ViewProps;
    layoutConstraints : LayoutConstraints;
    layoutContext : LayoutContext }.

(** The dynamic type of a props object: [RootProps] derives from
    [ViewProps]; any other props class is [OtherProps]. *)
Inductive Props : Type :=
| OtherProps (payload : Z)
| AViewProps (v : ViewProps)
| ARootProps (r : RootProps).

(** [SharedProps] is a nullable shared pointer. *)
Definition SharedProps : Type := option Props.

(** [std::dynamic_pointer_cast<const ViewProps>]. *)
Definition dynamic_cast_ViewProps (p : SharedProps) : option ViewProps :=
  match p with
  | Some (AViewProps v) => Some v
  | Some (ARootProps r) => Some (rootViewProps r)
  | Some (OtherProps _) => None
  | None => None
  end.

Inductive EmitterClass : Type := ViewEventEmitterClass | EventEmitterClass.

Record EventEmitter : Type := { emitterTag : Tag; emitterClass : EmitterClass }.

Definition SharedEventEmitter : Type := option EventEmitter.

(** [std::dynamic_pointer_cast<const ViewEventEmitter>]: null for a null
    pointer and for an emitter of another class. *)
Definition dynamic_cast_ViewEventEmitter (p : SharedEventEmitter) : option EventEmitter :=
  match p with
  | Some e =>
      match emitterClass e with
      | ViewEventEmitterClass => Some e
      | EventEmitterClass => None
      end
  | None => None
  end.

(** ** Shadow views and mutations *)

Record ShadowView : Type :=
  { tag : Tag;
    props : SharedProps;
    eventEmitter : SharedEventEmitter;
    layoutMetrics : LayoutMetrics }.

Inductive MutationType : Type := Create | Delete | Insert | Remove | Update.

Definition MutationType_eqb (a b : MutationType) : bool :=
  match a, b with
  | Create, Create | Delete, Delete | Insert, Insert
  | Remove, Remove | Update, Update => true
  | _, _ => false
  end.

Record ShadowViewMutation : Type :=
  { type : MutationType;
    parentShadowView : ShadowView;
    oldChildShadowView : ShadowView;
    newChildShadowView : ShadowView;
    index : Z }.

Definition ShadowViewMutationList : Type := list ShadowViewMutation.

(** ** Shadow nodes in the store *)

Definition Ref : Type := nat.

Record ShadowNode : Type :=
  { tag_ : Tag;
    rootTag_ : Tag;
    props_ : SharedProps;
    eventEmitter_ : SharedEventEmitter;
    children_ : list Ref;
    layoutMetrics_ : LayoutMetrics;
    sealed_ : bool }.

Module ShadowNodeFragment.

(** A fragment names the fields a constructor or a clone replaces; a field
    left out ([None]) is taken from the source node.  [children] is a shared
    pointer to a list: a null pointer also leaves the field out. *)
Record t : Type :=
  { tag : option Tag;
    rootTag : option Tag;
    props : option SharedProps;
    eventEmitter : option SharedEventEmitter;
    children : option (list Ref) }.

Definition empty : t :=
  {| tag := None; rootTag := None; props := None;
     eventEmitter := None; children := None |}.

End ShadowNodeFragment.

Definition Delegate : Type := nat.

(** ** Observable calls *)

Inductive Event : Type :=
| EvEnable (e : SharedEventEmitter)
| EvDisable (e : SharedEventEmitter)
| EvOnLayout (e : EventEmitter) (m : LayoutMetrics)
| EvShadowTreeDidCommit (d : Delegate) (s : SurfaceId) (ms : ShadowViewMutationList).

(** ** The state the methods of [ShadowTree] act on *)

Record State : Type :=
  { heap : gmap Ref ShadowNode;
    surfaceId_ : SurfaceId;
    rootShadowNode_ : Ref;
    delegate_ : option Delegate;
    trace : list Event }.

Definition set_heap (h : gmap Ref ShadowNode) (s : State) : State :=
  {| heap := h; surfaceId_ := surfaceId_ s; rootShadowNode_ := rootShadowNode_ s;
     delegate_ := delegate_ s; trace := trace s |}.

Definition set_rootShadowNode (r : Ref) (s : State) : State :=
  {| heap := heap s; surfaceId_ := surfaceId_ s; rootShadowNode_ := r;
     delegate_ := delegate_ s; trace := trace s |}.

Definition set_delegate (d : option Delegate) (s : State) : State :=
  {| heap := heap s; surfaceId_ := surfaceId_ s; rootShadowNode_ := rootShadowNode_ s;
     delegate_ := d; trace := trace s |}.

Definition set_trace (t : list Event) (s : State) : State :=
  {| heap := heap s; surfaceId_ := surfaceId_ s; rootShadowNode_ := rootShadowNode_ s;
     delegate_ := delegate_ s; trace := t |}.

(** A method is a state transformer returning a value. *)
Definition Op (A : Type) : Type := State → A * State.

#[global] Instance Op_ret : MRet Op := λ A a s, (a, s).
#[global] Instance Op_bind : MBind Op :=
  λ A B f m s, let '(a, s') := m s in f a s'.

Definition get : Op State := λ s, (s, s).
Definition modify (f : State → State) : Op unit := λ s, (tt, f s).
Definition call (ev : Event) : Op unit := modify (λ s, set_trace (trace s ++ [ev]) s).

(** [for (const auto &a : l) body]. *)
Fixpoint forEach {A : Type} (l : list A) (body : A → Op unit) : Op unit :=
  match l with
  | [] => mret tt
  | a :: l' => body a ≫= λ _, forEach l' body
  end.

(** [continue] inside a loop body. *)
Definition continue : Op unit := mret tt.

(** ** Event emitters and layout events *)

Definition emitLayoutEvents (mutations : ShadowViewMutationList) : Op unit :=
  forEach mutations (λ mutation,
    (* Only Insert and Update mutations can affect layout metrics. *)
    if negb (MutationType_eqb (type mutation) Insert) &&
       negb (MutationType_eqb (type mutation) Update)
    then continue
    else
      match dynamic_cast_ViewEventEmitter (eventEmitter (newChildShadowView mutation)) with
      | None => continue
      | Some viewEventEmitter =>
          let viewProps := dynamic_cast_ViewProps (props (newChildShadowView mutation)) in
          if match viewProps with
             | Some vp => negb (onLayout vp)
             | None => false
             end
          then continue
          else
            if negb (MutationType_eqb (type mutation) Update) &&
               LayoutMetrics_eqb (layoutMetrics (oldChildShadowView mutation))
                                 (layoutMetrics (newChildShadowView mutation))
            then continue
            else call (EvOnLayout viewEventEmitter
                                  (layoutMetrics (newChildShadowView mutation)))
      end).

Definition toggleEventEmitters (mutations : ShadowViewMutationList) : Op unit :=
  forEach mutations (λ mutation,
    if MutationType_eqb (type mutation) Create
    then call (EvEnable (eventEmitter (newChildShadowView mutation)))
    else continue) ≫= λ _,
  forEach mutations (λ mutation,
    if MutationType_eqb (type mutation) Delete
    then call (EvDisable (eventEmitter (oldChildShadowView mutation)))
    else continue).

(** ** The shadow-node contract

    [ShadowNode] and [RootShadowNode] are implemented outside this
    translation unit; the operations below are the ones it calls. *)

(** A shared pointer keeps its object alive, so every address a state holds
    is in the store; reading through an address outside it gives this empty
    node. *)
Definition nullShadowNode : ShadowNode :=
  {| tag_ := 0%Z; rootTag_ := 0%Z; props_ := None; eventEmitter_ := None;
     children_ := []; layoutMetrics_ := EmptyLayoutMetrics; sealed_ := false |}.

Definition deref (h : gmap Ref ShadowNode) (r : Ref) : ShadowNode :=
  default nullShadowNode (h !! r).

Definition getChildren (h : gmap Ref ShadowNode) (r : Ref) : list Ref :=
  children_ (deref h r).

Definition getLayoutMetrics (h : gmap Ref ShadowNode) (r : Ref) : LayoutMetrics :=
  layoutMetrics_ (deref h r).

Definition defaultRootProps : RootProps :=
  {| rootViewProps := {| onLayout := false; viewPropsRest := 0%Z |};
     layoutConstraints :=
       {| minimumSize := {| Graphics.width := 0%float; Graphics.height := 0%float |};
          maximumSize := {| Graphics.width := infinity; Graphics.height := infinity |} |};
     layoutContext :=
       {| absolutePosition := {| Graphics.x := 0%float; Graphics.y := 0%float |} |} |}.

(** [RootShadowNode::getProps]: the props of a root are [RootProps]. *)
Definition getRootProps (h : gmap Ref ShadowNode) (r : Ref) : RootProps :=
  match props_ (deref h r) with
  | Some (ARootProps p) => p
  | _ => defaultRootProps
  end.

(** [RootProps(sourceProps, layoutConstraints, layoutContext)]. *)
Definition RootProps_with (source : RootProps) (lc : LayoutConstraints)
    (ctx : LayoutContext) : RootProps :=
  {| rootViewProps := rootViewProps source;
     layoutConstraints := lc;
     layoutContext := ctx |}.

(** Modelled from the spec: the copy constructor with a fragment, "cloning a
    node with a fragment of changed fields yields a new node sharing
    unchanged sub-structure with the original".  The copy is a new, unsealed
    object; the fields the fragment leaves out, and the layout metrics, are
    those of the source. *)
Definition cloneWith (source : ShadowNode) (fragment : ShadowNodeFragment.t) : ShadowNode :=
  {| tag_ := default (tag_ source) (ShadowNodeFragment.tag fragment);
     rootTag_ := default (rootTag_ source) (ShadowNodeFragment.rootTag fragment);
     props_ := default (props_ source) (ShadowNodeFragment.props fragment);
     eventEmitter_ := default (eventEmitter_ source) (ShadowNodeFragment.eventEmitter fragment);
     children_ := default (children_ source) (ShadowNodeFragment.children fragment);
     layoutMetrics_ := layoutMetrics_ source;
     sealed_ := false |}.

(** [std::make_shared]: the new object gets an address no live object has. *)
Definition make_shared (n : ShadowNode) : Op Ref :=
  λ s, let r := fresh (dom (heap s)) in (r, set_heap (<[r := n]> (heap s)) s).

(** [source->clone(fragment)], and the copy constructor of [RootShadowNode]
    with a fragment. *)
Definition clone (source : Ref) (fragment : ShadowNodeFragment.t) : Op Ref :=
  s ← get; make_shared (cloneWith (deref (heap s) source) fragment).

(** The addresses of the subtree under [r], parents before children.  The
    store holds finitely many nodes, which bounds the depth of a tree in it. *)
Fixpoint subtree (fuel : nat) (h : gmap Ref ShadowNode) (r : Ref) : list Ref :=
  match fuel with
  | O => []
  | S fuel' => r :: flat_map (subtree fuel' h) (getChildren h r)
  end.

Definition seal (n : ShadowNode) : ShadowNode :=
  {| tag_ := tag_ n; rootTag_ := rootTag_ n; props_ := props_ n;
     eventEmitter_ := eventEmitter_ n; children_ := children_ n;
     layoutMetrics_ := layoutMetrics_ n; sealed_ := true |}.

(** Modelled from the spec: [sealRecursive()] is "idempotent, makes subtree
    permanently read-only". *)
Definition sealRecursive (r : Ref) : Op unit :=
  modify (λ s,
    set_heap (foldr (alter seal) (heap s) (subtree (size (heap s)) (heap s) r)) s).

Definition setLayoutMetrics (m : LayoutMetrics) (n : ShadowNode) : ShadowNode :=
  {| tag_ := tag_ n; rootTag_ := rootTag_ n; props_ := props_ n;
     eventEmitter_ := eventEmitter_ n; children_ := children_ n;
     layoutMetrics_ := m; sealed_ := sealed_ n |}.

(** The first child under which [search] succeeds. *)
Fixpoint searchChildren (search : Ref → option (list Ref)) (cs : list Ref)
    : option (list Ref) :=
  match cs with
  | [] => None
  | c :: cs' =>
      match search c with
      | Some path => Some path
      | None => searchChildren search cs'
      end
  end.

(** Modelled from the spec: the resolver "finds the unique chain of ancestors
    from target to root, or reports absence".  [this] is searched depth
    first under [ancestorShadowNode]; on success the ancestors are pushed
    from the parent of [this] outwards, [ancestorShadowNode] last, and
    [this] itself is found with nothing pushed.  The loop of
    [completeByReplacingShadowNode] relies on that order: it replaces the old
    node in the first ancestor and ends with the children of the root. *)
Fixpoint constructAncestorPath_rec (fuel : nat) (h : gmap Ref ShadowNode)
    (this ancestorShadowNode : Ref) : option (list Ref) :=
  if decide (this = ancestorShadowNode) then Some []
  else
    match fuel with
    | O => None
    | S fuel' =>
        match searchChildren (constructAncestorPath_rec fuel' h this)
                (getChildren h ancestorShadowNode) with
        | Some path => Some (path ++ [ancestorShadowNode])
        | None => None
        end
    end.

(** The [bool] is the return value, the list is the out-parameter
    [ancestors] (empty before the call, and left empty on failure). *)
Definition constructAncestorPath (h : gmap Ref ShadowNode)
    (this ancestorShadowNode : Ref) : bool * list Ref :=
  match constructAncestorPath_rec (size h) h this ancestorShadowNode with
  | Some path => (true, path)
  | None => (false, [])
  end.

(** [std::replace(first, last, old_value, new_value)] on a list of pointers. *)
Definition std_replace (l : list Ref) (old_value new_value : Ref) : list Ref :=
  map (λ c, if decide (c = old_value) then new_value else c) l.

(** [t] is strictly below [a] in the store. *)
Inductive descendant (h : gmap Ref ShadowNode) : Ref → Ref → Prop :=
| descendant_child a c :
    c ∈ getChildren h a → descendant h a c
| descendant_step a c t :
    c ∈ getChildren h a → descendant h c t → descendant h a t.

(** ** The methods of [ShadowTree] *)

Section ShadowTree.

(** The structural diff, an external pure function of two sealed trees. *)
Variable calculateShadowViewMutations :
  gmap Ref ShadowNode → Ref → Ref → ShadowViewMutationList.

(** The layout algorithm, an external collaborator: the metrics it assigns
    to node [a] when the tree under [root] is laid out in store [h]. *)
Variable layoutAlgorithm : gmap Ref ShadowNode → Ref → Ref → LayoutMetrics.

(** A sealed node is read-only; an unsealed one takes the metrics the
    algorithm computes for it. *)
Definition layoutNode (h : gmap Ref ShadowNode) (root a : Ref) (n : ShadowNode) : ShadowNode :=
  if sealed_ n then n else setLayoutMetrics (layoutAlgorithm h root a) n.

(** Modelled from the spec: [layout()] "mutates an as-yet-unsealed subtree's
    metrics in place".  It writes layout metrics, and nothing else, into the
    unsealed nodes of the subtree under [root]. *)
Definition layout (root : Ref) : Op unit :=
  modify (λ s,
    let h := heap s in
    set_heap (foldr (λ a, alter (layoutNode h root a) a) h (subtree (size h) h root)) s).

(** The constructor: the first snapshot is an empty root bound to the
    surface, with a no-op view event emitter. *)
Definition ShadowTree_new (surfaceId : SurfaceId) (lc : LayoutConstraints)
    (ctx : LayoutContext) (h : gmap Ref ShadowNode) : State :=
  let noopEventEmitter :=
    Some {| emitterTag := (-1)%Z; emitterClass := ViewEventEmitterClass |} in
  let props := Some (ARootProps (RootProps_with defaultRootProps lc ctx)) in
  let r := fresh (dom h) in
  {| heap := <[r := {| tag_ := surfaceId; rootTag_ := surfaceId; props_ := props;
                       eventEmitter_ := noopEventEmitter; children_ := [];
                       layoutMetrics_ := EmptyLayoutMetrics; sealed_ := false |}]> h;
     surfaceId_ := surfaceId;
     rootShadowNode_ := r;
     delegate_ := None;
     trace := [] |}.

Definition getSurfaceId : Op Tag :=
  s ← get; mret (surfaceId_ s).

Definition getRootShadowNode : Op Ref :=
  s ← get; mret (rootShadowNode_ s).

Definition synchronize (function : Op unit) : Op unit :=
  function.

Definition cloneRootShadowNode (oldRootShadowNode : Ref) (lc : LayoutConstraints)
    (ctx : LayoutContext) : Op Ref :=
  s ← get;
  let props := Some (ARootProps (RootProps_with (getRootProps (heap s) oldRootShadowNode) lc ctx)) in
  newRootShadowNode ←
    clone oldRootShadowNode
      {| ShadowNodeFragment.tag := None; ShadowNodeFragment.rootTag := None;
         ShadowNodeFragment.props := Some props;
         ShadowNodeFragment.eventEmitter := None;
         ShadowNodeFragment.children := None |};
  mret newRootShadowNode.

Definition measure (lc : LayoutConstraints) (ctx : LayoutContext) : Op Graphics.Size :=
  oldRootShadowNode ← getRootShadowNode;
  newRootShadowNode ← cloneRootShadowNode oldRootShadowNode lc ctx;
  layout newRootShadowNode;;
  s ← get;
  mret (Graphics.size (frame (getLayoutMetrics (heap s) newRootShadowNode))).

Definition commit (oldRootShadowNode newRootShadowNode : Ref)
    (mutations : ShadowViewMutationList) : Op bool :=
  s ← get;
  if negb (Nat.eqb oldRootShadowNode (rootShadowNode_ s)) then mret false
  else
    modify (set_rootShadowNode newRootShadowNode);;
    toggleEventEmitters mutations;;
    mret true.

Definition complete (oldRootShadowNode newRootShadowNode : Ref) : Op bool :=
  layout newRootShadowNode;;
  sealRecursive newRootShadowNode;;
  s ← get;
  let mutations :=
    calculateShadowViewMutations (heap s) oldRootShadowNode newRootShadowNode in
  committed ← commit oldRootShadowNode newRootShadowNode mutations;
  if negb committed then mret false
  else
    emitLayoutEvents mutations;;
    s' ← get;
    match delegate_ s' with
    | Some delegate => call (EvShadowTreeDidCommit delegate (surfaceId_ s') mutations)
    | None => mret tt
    end;;
    mret true.

Definition constraintLayout (lc : LayoutConstraints) (ctx : LayoutContext) : Op bool :=
  oldRootShadowNode ← getRootShadowNode;
  newRootShadowNode ← cloneRootShadowNode oldRootShadowNode lc ctx;
  complete oldRootShadowNode newRootShadowNode.

(** [complete(rootChildNodes)]; the argument is a shared pointer to a list. *)
Definition complete_rootChildNodes (rootChildNodes : option (list Ref)) : Op bool :=
  oldRootShadowNode ← getRootShadowNode;
  newRootShadowNode ←
    clone oldRootShadowNode
      {| ShadowNodeFragment.tag := None; ShadowNodeFragment.rootTag := None;
         ShadowNodeFragment.props := None;
         ShadowNodeFragment.eventEmitter := None;
         ShadowNodeFragment.children := rootChildNodes |};
  complete oldRootShadowNode newRootShadowNode.

(** The loop of [completeByReplacingShadowNode], one iteration per ancestor. *)
Fixpoint replaceAlongAncestors (ancestors : list Ref) (oldChild newChild : Ref)
    (sharedChildren : option (list Ref)) : Op (option (list Ref)) :=
  match ancestors with
  | [] => mret sharedChildren
  | ancestor :: ancestors' =>
      s ← get;
      let children := std_replace (getChildren (heap s) ancestor) oldChild newChild in
      let sharedChildren := Some children in
      let oldChild := ancestor in
      newChild ←
        clone oldChild
          {| ShadowNodeFragment.tag := None; ShadowNodeFragment.rootTag := None;
             ShadowNodeFragment.props := None;
             ShadowNodeFragment.eventEmitter := None;
             ShadowNodeFragment.children := sharedChildren |};
      replaceAlongAncestors ancestors' oldChild newChild sharedChildren
  end.

Definition completeByReplacingShadowNode (oldShadowNode newShadowNode : Ref) : Op bool :=
  rootShadowNode ← getRootShadowNode;
  s ← get;
  let ancestors := snd (constructAncestorPath (heap s) oldShadowNode rootShadowNode) in
  if Nat.eqb (length ancestors) 0 then mret false
  else
    sharedChildren ← replaceAlongAncestors ancestors oldShadowNode newShadowNode None;
    complete_rootChildNodes sharedChildren.

(** The destructor commits an empty child list. *)
Definition ShadowTree_delete : Op unit :=
  complete_rootChildNodes (Some []);;
  mret tt.

Definition setDelegate (delegate : option Delegate) : Op unit :=
  modify (set_delegate delegate).

Definition getDelegate : Op (option Delegate) :=
  s ← get; mret (delegate_ s).

End ShadowTree.

(** ** Observing a method *)

(** The calls on emitters and on the delegate that [op] makes when it is run
    from [s], in the order they are made. *)
Definition calls {A : Type} (op : Op A) (s : State) : list Event :=
  drop (length (trace s)) (trace (snd (op s))).

Definition appendTrace (out : list Event) (s : State) : State :=
  set_trace (trace s ++ out) s.

(** [op] does nothing but make a fixed sequence of calls. *)
Definition appends (op : Op unit) : Prop :=
  ∃ out, ∀ s, op s = (tt, appendTrace out s).

(** Existing nodes of [h] are found in [h'] with the same identity, props,
    emitter and child list; those that were sealed are found unchanged. *)
Definition preserved (n n' : ShadowNode) : Prop :=
  tag_ n' = tag_ n ∧ rootTag_ n' = rootTag_ n ∧ props_ n' = props_ n ∧
  eventEmitter_ n' = eventEmitter_ n ∧ children_ n' = children_ n ∧
  (sealed_ n = true → n' = n).

Definition heap_preserved (h h' : gmap Ref ShadowNode) : Prop :=
  ∀ r n, h !! r = Some n → ∃ n', h' !! r = Some n' ∧ preserved n n'.

(** ** A small surface used to exercise the methods *)

Definition mkSize (w h : Float) : Graphics.Size :=
  {| Graphics.width := w; Graphics.height := h |}.

Definition mkLayoutMetrics (x y w h : Float) : LayoutMetrics :=
  {| frame := {| Graphics.origin := {| Graphics.x := x; Graphics.y := y |};
                 Graphics.size := mkSize w h |} |}.

Definition viewEmitter (t : Tag) : EventEmitter :=
  {| emitterTag := t; emitterClass := ViewEventEmitterClass |}.

Definition viewProps (wantsLayout : bool) : SharedProps :=
  Some (AViewProps {| onLayout := wantsLayout; viewPropsRest := 0%Z |}).

Definition emptyShadowView : ShadowView :=
  {| tag := 0%Z; props := None; eventEmitter := None;
     layoutMetrics := EmptyLayoutMetrics |}.

Definition sampleView (t : Tag) (p : SharedProps) (m : LayoutMetrics) : ShadowView :=
  {| tag := t; props := p; eventEmitter := Some (viewEmitter t); layoutMetrics := m |}.

Definition sampleMutation (ty : MutationType) (old new : ShadowView) : ShadowViewMutation :=
  {| type := ty; parentShadowView := emptyShadowView;
     oldChildShadowView := old; newChildShadowView := new; index := 0%Z |}.

Definition metricsA : LayoutMetrics := mkLayoutMetrics 0%float 0%float 320%float 50%float.
Definition metricsB : LayoutMetrics := mkLayoutMetrics 0%float 50%float 320%float 70%float.

(** A created view that asks for layout events and has fresh metrics. *)
Definition createdView : ShadowViewMutation :=
  sampleMutation Create emptyShadowView (sampleView 7%Z (viewProps true) metricsA).

Definition insertedView : ShadowViewMutation :=
  sampleMutation Insert emptyShadowView (sampleView 7%Z (viewProps true) metricsA).

(** An update that leaves the metrics as they were. *)
Definition updatedSameMetrics : ShadowViewMutation :=
  sampleMutation Update (sampleView 7%Z (viewProps true) metricsA)
                        (sampleView 7%Z (viewProps true) metricsA).

Definition updatedOtherProps : ShadowViewMutation :=
  sampleMutation Update (sampleView 8%Z (Some (OtherProps 0%Z)) metricsA)
                        (sampleView 8%Z (Some (OtherProps 1%Z)) metricsB).

Definition deletedView : ShadowViewMutation :=
  sampleMutation Delete (sampleView 5%Z (viewProps false) metricsB) emptyShadowView.

Definition sampleNode (t : Tag) (cs : list Ref) (isSealed : bool) : ShadowNode :=
  {| tag_ := t; rootTag_ := 1%Z; props_ := viewProps true;
     eventEmitter_ := Some (viewEmitter t); children_ := cs;
     layoutMetrics_ := EmptyLayoutMetrics; sealed_ := isSealed |}.

Definition viewOf (n : ShadowNode) : ShadowView :=
  {| tag := tag_ n; props := props_ n; eventEmitter := eventEmitter_ n;
     layoutMetrics := layoutMetrics_ n |}.

(** A stand-in for the differentiator on flat child lists: a child that the
    new root drops is deleted, a child that it gains is created and
    inserted. *)
Definition flatDiff (h : gmap Ref ShadowNode) (old new : Ref) : ShadowViewMutationList :=
  let oldChildren := getChildren h old in
  let newChildren := getChildren h new in
  map (λ c, sampleMutation Delete (viewOf (deref h c)) emptyShadowView)
      (filter (λ c, c ∉ newChildren) oldChildren) ++
  map (λ c, sampleMutation Create emptyShadowView (viewOf (deref h c)))
      (filter (λ c, c ∉ oldChildren) newChildren) ++
  map (λ c, sampleMutation Insert emptyShadowView (viewOf (deref h c)))
      (filter (λ c, c ∉ oldChildren) newChildren).

(** A stand-in for the layout algorithm: a leaf is 10 wide, a node with
    children 320 wide, and both 50 high. *)
Definition boxLayout (h : gmap Ref ShadowNode) (root a : Ref) : LayoutMetrics :=
  mkLayoutMetrics 0%float 0%float
    (if decide (getChildren h a = []) then 10%float else 320%float) 50%float.

Definition sampleConstraints : LayoutConstraints :=
  {| minimumSize := mkSize 0%float 0%float; maximumSize := mkSize 320%float 480%float |}.

Definition sampleContext : LayoutContext :=
  {| absolutePosition := {| Graphics.x := 0%float; Graphics.y := 0%float |} |}.

(** A new tree for surface 1, next to four nodes [10 .. 13] the component
    tree has built. *)
Definition freshSurface : State :=
  set_delegate (Some 0)
    (ShadowTree_new 1%Z sampleConstraints sampleContext
       (<[10 := sampleNode 10%Z [] false]>
          (<[11 := sampleNode 11%Z [] false]>
             (<[12 := sampleNode 12%Z [] false]>
                (<[13 := sampleNode 13%Z [] false]> ∅))))).

(** The surface after committing the children [10; 11; 12]. *)
Definition mountedSurface : State :=
  snd (complete_rootChildNodes flatDiff boxLayout (Some [10; 11; 12]) freshSurface).

(** ** Vocabulary for the further properties *)

Definition is_toggle (ev : Event) : bool :=
  match ev with
  | EvEnable _ | EvDisable _ => true
  | _ => false
  end.

Definition is_onLayout (ev : Event) : bool :=
  match ev with
  | EvOnLayout _ _ => true
  | _ => false
  end.

(** The root slot holds a live node that is bound to the surface: it carries
    the surface id as its tag and root tag, [RootProps] as its props, and
    the no-op view event emitter the constructor gave the first root. *)
Definition rootInvariant (s : State) : Prop :=
  ∃ n rp,
    heap s !! rootShadowNode_ s = Some n ∧
    tag_ n = surfaceId_ s ∧
    rootTag_ n = surfaceId_ s ∧
    props_ n = Some (ARootProps rp) ∧
    eventEmitter_ n =
      Some {| emitterTag := (-1)%Z; emitterClass := ViewEventEmitterClass |}.

(** A surface with two levels: the root has the child [20], whose children
    are the leaves [21] and [22]; [23] is a replacement for [21]. *)
Definition nestedSurface : State :=
  snd (complete_rootChildNodes flatDiff boxLayout (Some [20])
         (set_delegate (Some 0)
            (ShadowTree_new 2%Z sampleConstraints sampleContext
               (<[20 := sampleNode 20%Z [21; 22] false]>
                  (<[21 := sampleNode 21%Z [] false]>
                     (<[22 := sampleNode 22%Z [] false]>
                        (<[23 := sampleNode 23%Z [] false]> ∅))))))).

(** * Properties *)

(** ** The trace *)

Lemma appendTrace_nil s : appendTrace [] s = s.
Proof. destruct s; unfold appendTrace, set_trace; simpl. by rewrite app_nil_r. Qed.

Lemma appendTrace_app out1 out2 s :
  appendTrace out2 (appendTrace out1 s) = appendTrace (out1 ++ out2) s.
Proof. unfold appendTrace, set_trace; simpl. by rewrite app_assoc. Qed.

Lemma calls_trace {A : Type} (op : Op A) (out : list Event) (s : State) :
  trace (snd (op s)) = trace s ++ out → calls op s = out.
Proof. intros Hop. unfold calls. by rewrite Hop, drop_app_length. Qed.

Lemma calls_appendTrace {A : Type} (op : Op A) (out : list Event) (s : State) :
  snd (op s) = appendTrace out s → calls op s = out.
Proof.
  intros Hop. unfold calls. rewrite Hop. simpl. by rewrite drop_app_length.
Qed.

Lemma appends_continue : appends continue.
Proof. exists []. intros s. by rewrite appendTrace_nil. Qed.

Lemma appends_call ev : appends (call ev).
Proof. by exists [ev]. Qed.

Lemma appends_run (op : Op unit) (s0 s : State) :
  appends op → op s = (tt, appendTrace (calls op s0) s).
Proof.
  intros [out Hout]. rewrite (calls_appendTrace op out s0); [done|].
  by rewrite Hout.
Qed.

(** A loop whose iterations only make calls makes the calls of its
    iterations, in the order of the list. *)
Lemma forEach_run {A : Type} (body : A → Op unit) (l : list A) (s0 s : State) :
  (∀ a, appends (body a)) →
  forEach l body s = (tt, appendTrace (flat_map (λ a, calls (body a) s0) l) s).
Proof.
  intros Hbody. revert s. induction l as [|a l IH]; intros s; simpl.
  - by rewrite appendTrace_nil.
  - unfold mbind, Op_bind. rewrite (appends_run _ s0) by done.
    by rewrite IH, appendTrace_app.
Qed.

Lemma forEach_appends {A : Type} (body : A → Op unit) (l : list A) :
  (∀ a, appends (body a)) → appends (forEach l body).
Proof.
  intros Hbody. induction l as [|a l [outl IH]]; [apply appends_continue|].
  destruct (Hbody a) as [outa Ha]. exists (outa ++ outl). intros s. simpl.
  unfold mbind, Op_bind. by rewrite Ha, IH, appendTrace_app.
Qed.

Lemma forEach_singleton_calls {A : Type} (body : A → Op unit) (a : A) (s : State) :
  appends (body a) → calls (forEach [a] body) s = calls (body a) s.
Proof.
  intros [out Ha]. rewrite (calls_appendTrace (body a) out) by by rewrite Ha.
  apply calls_appendTrace. simpl. unfold mbind, Op_bind, mret, Op_ret.
  by rewrite Ha.
Qed.

Lemma flat_map_if_singleton {A B : Type} (p : A → bool) (f : A → B) (l : list A) :
  flat_map (λ a, if p a then [f a] else []) l = map f (List.filter p l).
Proof.
  induction l as [|a l IH]; [done|]. simpl. destruct (p a); simpl; by rewrite IH.
Qed.

(** ** The event-emitter lifecycle manager *)

Lemma toggleEventEmitters_run mutations s :
  toggleEventEmitters mutations s =
  (tt, appendTrace
         (map (λ m, EvEnable (eventEmitter (newChildShadowView m)))
              (List.filter (λ m, MutationType_eqb (type m) Create) mutations) ++
          map (λ m, EvDisable (eventEmitter (oldChildShadowView m)))
              (List.filter (λ m, MutationType_eqb (type m) Delete) mutations)) s).
Proof.
  unfold toggleEventEmitters, mbind, Op_bind.
  rewrite (forEach_run _ _ s); cycle 1.
  { intros m. case_match; [apply appends_call | apply appends_continue]. }
  rewrite (forEach_run _ _ s); cycle 1.
  { intros m. case_match; [apply appends_call | apply appends_continue]. }
  rewrite appendTrace_app, <- !flat_map_if_singleton. do 2 f_equal.
  f_equal; apply flat_map_ext; intros m; case_match;
    by apply calls_appendTrace; rewrite ?appendTrace_nil.
Qed.

Lemma toggleEventEmitters_calls mutations s :
  calls (toggleEventEmitters mutations) s =
  map (λ m, EvEnable (eventEmitter (newChildShadowView m)))
      (List.filter (λ m, MutationType_eqb (type m) Create) mutations) ++
  map (λ m, EvDisable (eventEmitter (oldChildShadowView m)))
      (List.filter (λ m, MutationType_eqb (type m) Delete) mutations).
Proof. apply calls_appendTrace. by rewrite toggleEventEmitters_run. Qed.

Lemma toggleEventEmitters_appends mutations : appends (toggleEventEmitters mutations).
Proof. eexists. intros s. apply toggleEventEmitters_run. Qed.

Lemma commit_run oldRootShadowNode newRootShadowNode mutations s :
  commit oldRootShadowNode newRootShadowNode mutations s =
  if Nat.eqb oldRootShadowNode (rootShadowNode_ s)
  then (true, appendTrace (calls (toggleEventEmitters mutations) s)
                (set_rootShadowNode newRootShadowNode s))
  else (false, s).
Proof.
  unfold commit, get, mbind, Op_bind, mret, Op_ret, modify.
  destruct (Nat.eqb _ _); simpl; [|done].
  by rewrite (appends_run _ s _ (toggleEventEmitters_appends mutations)).
Qed.

(** ** The layout-event notifier *)

(** The calls [emitLayoutEvents] makes for one mutation. *)
Lemma emitLayoutEvents_one m s :
  calls (emitLayoutEvents [m]) s =
  match type m with
  | Insert | Update =>
      match dynamic_cast_ViewEventEmitter (eventEmitter (newChildShadowView m)) with
      | Some viewEventEmitter =>
          match dynamic_cast_ViewProps (props (newChildShadowView m)) with
          | Some vp =>
              if onLayout vp
              then if negb (MutationType_eqb (type m) Update) &&
                      LayoutMetrics_eqb (layoutMetrics (oldChildShadowView m))
                                        (layoutMetrics (newChildShadowView m))
                   then []
                   else [EvOnLayout viewEventEmitter (layoutMetrics (newChildShadowView m))]
              else []
          | None =>
              if negb (MutationType_eqb (type m) Update) &&
                 LayoutMetrics_eqb (layoutMetrics (oldChildShadowView m))
                                   (layoutMetrics (newChildShadowView m))
              then []
              else [EvOnLayout viewEventEmitter (layoutMetrics (newChildShadowView m))]
          end
      | None => []
      end
  | Create | Delete | Remove => []
  end.
Proof.
  apply calls_appendTrace. unfold emitLayoutEvents. simpl.
  unfold mbind, Op_bind, mret, Op_ret, continue, mret, Op_ret.
  destruct (type m); simpl; try by rewrite appendTrace_nil.
  all: destruct (dynamic_cast_ViewEventEmitter _); simpl;
    try by rewrite appendTrace_nil.
  all: destruct (dynamic_cast_ViewProps _) as [vp|]; simpl;
    try destruct (onLayout vp); simpl; try by rewrite appendTrace_nil.
  all: try (destruct (LayoutMetrics_eqb _ _); simpl; by rewrite ?appendTrace_nil).
  all: by rewrite ?appendTrace_nil.
Qed.

Lemma emitLayoutEvents_appends mutations : appends (emitLayoutEvents mutations).
Proof.
  apply forEach_appends. intros m. cbv zeta.
  repeat case_match; apply appends_continue || apply appends_call.
Qed.

Lemma emitLayoutEvents_run mutations s0 s :
  emitLayoutEvents mutations s =
  (tt, appendTrace (flat_map (λ m, calls (emitLayoutEvents [m]) s0) mutations) s).
Proof.
  unfold emitLayoutEvents.
  set (body := λ mutation : ShadowViewMutation, _).
  assert (Hbody : ∀ m, appends (body m)).
  { intros m. unfold body.
    repeat case_match; apply appends_continue || apply appends_call. }
  rewrite (forEach_run body mutations s0 s Hbody). do 2 f_equal.
  apply flat_map_ext. intros m. by rewrite forEach_singleton_calls.
Qed.

Lemma emitLayoutEvents_calls mutations s :
  calls (emitLayoutEvents mutations) s =
  flat_map (λ m, calls (emitLayoutEvents [m]) s) mutations.
Proof. apply calls_appendTrace. by rewrite (emitLayoutEvents_run mutations s s). Qed.

Lemma emitLayoutEvents_elem mutations m ev s :
  m ∈ mutations → ev ∈ calls (emitLayoutEvents [m]) s →
  ev ∈ calls (emitLayoutEvents mutations) s.
Proof.
  intros Hm Hev. rewrite emitLayoutEvents_calls.
  apply list_elem_of_In, in_flat_map. exists m.
  split; by apply list_elem_of_In.
Qed.

(** C5: [toggleEventEmitters] makes two complete passes over the mutation
    list.  The calls it makes are the enables of the new emitters of all
    Create mutations, in list order, followed by the disables of the old
    emitters of all Delete mutations, in list order; so no disable of the
    batch comes before an enable of the batch, wherever the Create and
    Delete mutations stand in the list.  Nothing else in the state changes. *)
Theorem toggleEventEmitters_enables_then_disables
    (mutations : ShadowViewMutationList) (s : State) :
  let evs := calls (toggleEventEmitters mutations) s in
  toggleEventEmitters mutations s = (tt, appendTrace evs s) ∧
  evs =
    map (λ m, EvEnable (eventEmitter (newChildShadowView m)))
        (List.filter (λ m, MutationType_eqb (type m) Create) mutations) ++
    map (λ m, EvDisable (eventEmitter (oldChildShadowView m)))
        (List.filter (λ m, MutationType_eqb (type m) Delete) mutations) ∧
  (∀ i j e e',
     evs !! i = Some (EvDisable e) → evs !! j = Some (EvEnable e') → j < i).
Proof.
  intros evs.
  pose proof (toggleEventEmitters_calls mutations s) as Hevs. fold evs in Hevs.
  split; [by rewrite toggleEventEmitters_run, Hevs|].
  split; [done|]. rewrite Hevs. clear Hevs evs.
  set (enables := map _ (List.filter _ _)).
  set (disables := map _ (List.filter _ _)).
  intros i j e e' Hi Hj.
  assert (length enables ≤ i).
  { destruct (decide (i < length enables)) as [Hlt|]; [|lia].
    rewrite lookup_app_l in Hi by done.
    by apply list_lookup_fmap_Some in Hi as (m & Hm & _). }
  assert (j < length enables); [|lia].
  destruct (decide (j < length enables)) as [|Hge]; [done|].
  rewrite lookup_app_r in Hj by lia.
  by apply list_lookup_fmap_Some in Hj as (m & Hm & _).
Qed.

(** C1: [commit] compares the base snapshot with the root slot by identity.
    If they differ it returns false and leaves the whole state, the root
    slot included, as it was.  If they are the same object it stores the new
    root in the slot, runs [toggleEventEmitters] over the mutation list and
    returns true. *)
Theorem commit_checks_base_identity
    (oldRootShadowNode newRootShadowNode : Ref)
    (mutations : ShadowViewMutationList) (s : State) :
  (oldRootShadowNode ≠ rootShadowNode_ s →
     commit oldRootShadowNode newRootShadowNode mutations s = (false, s)) ∧
  (oldRootShadowNode = rootShadowNode_ s →
     commit oldRootShadowNode newRootShadowNode mutations s =
       (true, snd (toggleEventEmitters mutations
                     (set_rootShadowNode newRootShadowNode s))) ∧
     rootShadowNode_ (snd (commit oldRootShadowNode newRootShadowNode mutations s))
       = newRootShadowNode ∧
     calls (commit oldRootShadowNode newRootShadowNode mutations) s
       = calls (toggleEventEmitters mutations) s).
Proof.
  rewrite commit_run. split.
  - intros Hne. apply Nat.eqb_neq in Hne. by rewrite Hne.
  - intros ->. rewrite Nat.eqb_refl. simpl. split; [|split; [done|]].
    + by rewrite (appends_run _ s _ (toggleEventEmitters_appends mutations)).
    + apply calls_trace. by rewrite commit_run, Nat.eqb_refl.
Qed.

(** C3, as the code has it: the notifier handles Insert and Update
    mutations only.  An Insert mutation whose emitter is a view event
    emitter, whose props request layout events and whose old and new layout
    metrics differ makes the notifier call [onLayout] with the new metrics;
    a Create mutation contributes no call at all. *)
Theorem emitLayoutEvents_insert_not_create :
  (∀ mutations m e vp s,
     m ∈ mutations →
     type m = Insert →
     dynamic_cast_ViewEventEmitter (eventEmitter (newChildShadowView m)) = Some e →
     dynamic_cast_ViewProps (props (newChildShadowView m)) = Some vp →
     onLayout vp = true →
     LayoutMetrics_eqb (layoutMetrics (oldChildShadowView m))
                       (layoutMetrics (newChildShadowView m)) = false →
     EvOnLayout e (layoutMetrics (newChildShadowView m))
       ∈ calls (emitLayoutEvents mutations) s) ∧
  (∀ before m after s,
     type m = Create →
     calls (emitLayoutEvents (before ++ m :: after)) s =
     calls (emitLayoutEvents before) s ++ calls (emitLayoutEvents after) s).
Proof.
  split.
  - intros mutations m e vp s Hm Hty He Hvp Hon Hne.
    apply (emitLayoutEvents_elem _ m); [done|].
    rewrite emitLayoutEvents_one, Hty, He, Hvp, Hon, Hne. simpl. set_solver.
  - intros before m after s Hty.
    rewrite !emitLayoutEvents_calls, flat_map_app. simpl.
    by rewrite emitLayoutEvents_one, Hty.
Qed.

(** C3 as stated fails: a Create mutation with a view event emitter, props
    that request layout events and changed metrics gets no [onLayout] call. *)
Lemma emitLayoutEvents_skips_create :
  ¬ (∀ mutations m e vp s,
       m ∈ mutations →
       type m = Create →
       dynamic_cast_ViewEventEmitter (eventEmitter (newChildShadowView m)) = Some e →
       dynamic_cast_ViewProps (props (newChildShadowView m)) = Some vp →
       onLayout vp = true →
       LayoutMetrics_eqb (layoutMetrics (oldChildShadowView m))
                         (layoutMetrics (newChildShadowView m)) = false →
       EvOnLayout e (layoutMetrics (newChildShadowView m))
         ∈ calls (emitLayoutEvents mutations) s).
Proof.
  intros Hclaim.
  pose proof (Hclaim [createdView] createdView (viewEmitter 7%Z)
                {| onLayout := true; viewPropsRest := 0%Z |} freshSurface
                (list_elem_of_here _ _) eq_refl eq_refl eq_refl eq_refl eq_refl)
    as Hcall.
  rewrite emitLayoutEvents_one in Hcall. simpl in Hcall.
  by apply not_elem_of_nil in Hcall.
Qed.

(** C4, on the code: an Update mutation whose old and new layout metrics are
    equal still makes the notifier call [onLayout]; the comparison of the
    metrics is made for the mutations that are not updates. *)
Lemma emitLayoutEvents_update_same_metrics :
  type updatedSameMetrics = Update ∧
  LayoutMetrics_eqb (layoutMetrics (oldChildShadowView updatedSameMetrics))
                    (layoutMetrics (newChildShadowView updatedSameMetrics)) = true ∧
  calls (emitLayoutEvents [updatedSameMetrics]) freshSurface =
    [EvOnLayout (viewEmitter 7%Z) metricsA].
Proof. split; [done|]. split; [done|]. by rewrite emitLayoutEvents_one. Qed.

(** C10: the props check skips a mutation only when its new props are view
    props that do not request layout events.  An Insert or Update mutation
    whose new props are of another kind (the cast is null) and whose emitter
    is a view event emitter goes on to the metrics check, and gets the
    [onLayout] call when its metrics differ; with view props that do not
    request layout events the same mutation gets none. *)
Theorem emitLayoutEvents_props_check :
  (∀ mutations m e s,
     m ∈ mutations →
     type m = Insert ∨ type m = Update →
     dynamic_cast_ViewEventEmitter (eventEmitter (newChildShadowView m)) = Some e →
     dynamic_cast_ViewProps (props (newChildShadowView m)) = None →
     LayoutMetrics_eqb (layoutMetrics (oldChildShadowView m))
                       (layoutMetrics (newChildShadowView m)) = false →
     EvOnLayout e (layoutMetrics (newChildShadowView m))
       ∈ calls (emitLayoutEvents mutations) s) ∧
  (∀ m vp s,
     dynamic_cast_ViewProps (props (newChildShadowView m)) = Some vp →
     onLayout vp = false →
     calls (emitLayoutEvents [m]) s = []).
Proof.
  split.
  - intros mutations m e s Hm Hty He Hvp Hne.
    apply (emitLayoutEvents_elem _ m); [done|].
    rewrite emitLayoutEvents_one, He, Hvp, Hne, andb_false_r.
    destruct Hty as [-> | ->]; set_solver.
  - intros m vp s Hvp Hoff. rewrite emitLayoutEvents_one, Hvp, Hoff.
    by repeat case_match.
Qed.

(** ** The store *)

Lemma preserved_refl n : preserved n n.
Proof. by unfold preserved. Qed.

Lemma preserved_trans n1 n2 n3 :
  preserved n1 n2 → preserved n2 n3 → preserved n1 n3.
Proof.
  unfold preserved. intros (? & ? & ? & ? & ? & H12) (? & ? & ? & ? & ? & H23).
  repeat split; try congruence.
  intros Hsealed. specialize (H12 Hsealed). subst n2. auto.
Qed.

Lemma heap_preserved_refl h : heap_preserved h h.
Proof. intros r n Hr. eauto using preserved_refl. Qed.

Lemma heap_preserved_trans h1 h2 h3 :
  heap_preserved h1 h2 → heap_preserved h2 h3 → heap_preserved h1 h3.
Proof.
  intros H12 H23 r n Hr. destruct (H12 r n Hr) as (n2 & Hr2 & Hp2).
  destruct (H23 r n2 Hr2) as (n3 & Hr3 & Hp3). eauto using preserved_trans.
Qed.

Lemma heap_preserved_subseteq (h h' : gmap Ref ShadowNode) :
  h ⊆ h' → heap_preserved h h'.
Proof.
  intros Hsub r n Hr. exists n. split; [|apply preserved_refl].
  by eapply lookup_weaken.
Qed.

Lemma preserved_seal n : preserved n (seal n).
Proof.
  unfold preserved, seal; simpl. repeat split. intros Hs. destruct n; simpl in *.
  by rewrite Hs.
Qed.

(** In-place writes that preserve every node they touch preserve the store
    and the set of live addresses. *)
Lemma foldr_alter_preserved (write : Ref → ShadowNode → ShadowNode)
    (l : list Ref) (h : gmap Ref ShadowNode) :
  (∀ a n, preserved n (write a n)) →
  heap_preserved h (foldr (λ a, alter (write a) a) h l).
Proof.
  intros Hwrite. induction l as [|a l IH]; simpl; [apply heap_preserved_refl|].
  eapply heap_preserved_trans; [exact IH|]. intros r n Hr.
  destruct (decide (a = r)) as [->|Hne].
  - exists (write r n). by rewrite lookup_alter_eq, Hr.
  - exists n. rewrite lookup_alter_ne by done. eauto using preserved_refl.
Qed.

Lemma foldr_alter_dom (write : Ref → ShadowNode → ShadowNode)
    (l : list Ref) (h : gmap Ref ShadowNode) :
  dom (foldr (λ a, alter (write a) a) h l) = dom h.
Proof. induction l as [|a l IH]; simpl; [done|]. by rewrite dom_alter_L. Qed.

Lemma make_shared_fresh n s : fst (make_shared n s) ∉ dom (heap s).
Proof. apply is_fresh. Qed.

Lemma make_shared_subseteq n s : heap s ⊆ heap (snd (make_shared n s)).
Proof. simpl. apply insert_subseteq, not_elem_of_dom, is_fresh. Qed.

Lemma make_shared_lookup n s :
  heap (snd (make_shared n s)) !! fst (make_shared n s) = Some n.
Proof. simpl. apply lookup_insert_eq. Qed.

Lemma clone_run source fragment s :
  clone source fragment s =
  (fresh (dom (heap s)),
   set_heap (<[fresh (dom (heap s)) := cloneWith (deref (heap s) source) fragment]>
               (heap s)) s).
Proof. reflexivity. Qed.

Lemma getChildren_lookup h r n : h !! r = Some n → getChildren h r = children_ n.
Proof. intros Hr. unfold getChildren, deref. by rewrite Hr. Qed.

Lemma heap_preserved_getChildren h h' r n :
  heap_preserved h h' → h !! r = Some n → getChildren h' r = children_ n.
Proof.
  intros Hp Hr. destruct (Hp r n Hr) as (n' & Hr' & Hn').
  rewrite (getChildren_lookup _ _ _ Hr'). apply Hn'.
Qed.

Lemma sealRecursive_run r s :
  sealRecursive r s =
  (tt, set_heap (foldr (λ a, alter seal a) (heap s)
                       (subtree (size (heap s)) (heap s) r)) s).
Proof. reflexivity. Qed.

Lemma sealRecursive_preserved r s :
  heap_preserved (heap s) (heap (snd (sealRecursive r s))).
Proof. simpl. apply (foldr_alter_preserved (λ _, seal)). intros _ n. apply preserved_seal. Qed.

Lemma sealRecursive_dom r s : dom (heap (snd (sealRecursive r s))) = dom (heap s).
Proof. simpl. apply (foldr_alter_dom (λ _, seal)). Qed.

Lemma foldr_alter_lookup_outside (write : Ref → ShadowNode → ShadowNode)
    (l : list Ref) (h : gmap Ref ShadowNode) (r : Ref) :
  r ∉ l → foldr (λ a, alter (write a) a) h l !! r = h !! r.
Proof.
  induction l as [|a l IH]; simpl; [done|]. intros Hr.
  apply not_elem_of_cons in Hr as [Hne Hr]. rewrite lookup_alter_ne by done. auto.
Qed.

(** What a traversal visits is the node it starts from and nodes below it. *)
Lemma subtree_descendant fuel h r a :
  a ∈ subtree fuel h r → a = r ∨ descendant h r a.
Proof.
  revert r. induction fuel as [|fuel IH]; intros r; simpl.
  - intros Hin. by apply not_elem_of_nil in Hin.
  - intros Hin. apply elem_of_cons in Hin as [->|Hin]; [by left|]. right.
    apply list_elem_of_In, in_flat_map in Hin as (c & Hc & Hin).
    apply list_elem_of_In in Hc, Hin.
    destruct (IH c Hin) as [->|Hd].
    + by apply descendant_child.
    + by eapply descendant_step.
Qed.

Lemma heap_preserved_getChildren_eq h h' :
  heap_preserved h h' → dom h' = dom h → ∀ r, getChildren h' r = getChildren h r.
Proof.
  intros Hp Hdom r. destruct (h !! r) as [n|] eqn:Hr.
  - rewrite (heap_preserved_getChildren _ _ _ _ Hp Hr).
    by rewrite (getChildren_lookup _ _ _ Hr).
  - assert (h' !! r = None) as Hr'.
    { apply not_elem_of_dom. rewrite Hdom. by apply not_elem_of_dom. }
    unfold getChildren, deref. by rewrite Hr, Hr'.
Qed.

Lemma descendant_getChildren_eq h h' a t :
  (∀ r, getChildren h' r = getChildren h r) → descendant h a t → descendant h' a t.
Proof.
  intros Heq Hd. induction Hd as [a c Hc | a c t Hc _ IH].
  - apply descendant_child. by rewrite Heq.
  - eapply descendant_step; [|exact IH]. by rewrite Heq.
Qed.

Lemma sealRecursive_lookup_outside root s r :
  r ≠ root → ¬ descendant (heap s) root r →
  heap (snd (sealRecursive root s)) !! r = heap s !! r.
Proof.
  intros Hne Hnot. simpl. apply (foldr_alter_lookup_outside (λ _, seal)).
  intros Hin. apply subtree_descendant in Hin as [?|?]; done.
Qed.

(** ** The ancestor-path resolver *)

Lemma searchChildren_None search cs :
  (∀ c, c ∈ cs → search c = None) → searchChildren search cs = None.
Proof.
  induction cs as [|c cs IH]; intros Hall; simpl; [done|].
  rewrite Hall by apply list_elem_of_here. apply IH. intros c' Hc'.
  apply Hall. by apply list_elem_of_further.
Qed.

(** A node that is not below [a] is not found under [a]. *)
Lemma constructAncestorPath_rec_unreachable fuel h this a :
  this ≠ a → ¬ descendant h a this →
  constructAncestorPath_rec fuel h this a = None.
Proof.
  revert a. induction fuel as [|fuel IH]; intros a Hne Hnot; simpl;
    rewrite decide_False by done; [done|].
  rewrite searchChildren_None; [done|]. intros c Hc. apply IH.
  - intros ->. apply Hnot. by apply descendant_child.
  - intros Hd. apply Hnot. by eapply descendant_step.
Qed.

Lemma constructAncestorPath_unreachable h this root :
  ¬ descendant h root this → snd (constructAncestorPath h this root) = [].
Proof.
  intros Hnot. unfold constructAncestorPath.
  destruct (decide (this = root)) as [->|Hne].
  - destruct (size h); simpl; by rewrite decide_True.
  - by rewrite constructAncestorPath_rec_unreachable.
Qed.

(** The second of three children is found directly under the root when it is
    not below the first. *)
Lemma constructAncestorPath_second_child h root rootNode A B C :
  h !! root = Some rootNode → children_ rootNode = [A; B; C] →
  A ≠ B → B ≠ root → ¬ descendant h A B →
  constructAncestorPath h B root = (true, [root]).
Proof.
  intros Hroot Hchildren HAB HBroot Hnot. unfold constructAncestorPath.
  destruct (size h) as [|fuel] eqn:Hsize.
  { apply map_size_empty_inv in Hsize. subst h. by rewrite lookup_empty in Hroot. }
  simpl. rewrite decide_False by done.
  rewrite (getChildren_lookup _ _ _ Hroot), Hchildren. simpl.
  rewrite constructAncestorPath_rec_unreachable by done.
  destruct fuel; simpl; by rewrite decide_True.
Qed.

Lemma run_unit (op : Op unit) (s : State) : op s = (tt, snd (op s)).
Proof. by destruct (op s) as [[] s']. Qed.

Lemma appends_calls_indep (op : Op unit) (s1 s2 : State) :
  appends op → calls op s1 = calls op s2.
Proof.
  intros [out Hout].
  rewrite (calls_appendTrace op out s1), (calls_appendTrace op out s2);
    by rewrite ?Hout.
Qed.

(** ** Committing *)

Section Commit.

Context (diff : gmap Ref ShadowNode → Ref → Ref → ShadowViewMutationList).
Context (lay : gmap Ref ShadowNode → Ref → Ref → LayoutMetrics).

Lemma preserved_layoutNode h root a n : preserved n (layoutNode lay h root a n).
Proof.
  unfold layoutNode. destruct (sealed_ n) eqn:Hsealed; [apply preserved_refl|].
  unfold preserved; simpl. repeat split. congruence.
Qed.

Lemma layout_preserved r s : heap_preserved (heap s) (heap (snd (layout lay r s))).
Proof.
  simpl. apply (foldr_alter_preserved (layoutNode lay (heap s) r)).
  apply preserved_layoutNode.
Qed.

Lemma layout_dom r s : dom (heap (snd (layout lay r s))) = dom (heap s).
Proof. simpl. apply (foldr_alter_dom (layoutNode lay (heap s) r)). Qed.

Lemma layout_lookup_outside root s r :
  r ≠ root → ¬ descendant (heap s) root r →
  heap (snd (layout lay root s)) !! r = heap s !! r.
Proof.
  intros Hne Hnot. simpl.
  apply (foldr_alter_lookup_outside (layoutNode lay (heap s) root)).
  intros Hin. apply subtree_descendant in Hin as [?|?]; done.
Qed.

(** The state [complete] computes the mutations in: the candidate is laid
    out and sealed. *)
Lemma prepared_preserved r s :
  heap_preserved (heap s) (heap (snd (sealRecursive r (snd (layout lay r s))))).
Proof.
  eapply heap_preserved_trans; [apply layout_preserved|apply sealRecursive_preserved].
Qed.

Lemma prepared_dom r s :
  dom (heap (snd (sealRecursive r (snd (layout lay r s))))) = dom (heap s).
Proof. by rewrite sealRecursive_dom, layout_dom. Qed.

Lemma complete_run oldRootShadowNode newRootShadowNode s :
  let prepared := snd (sealRecursive newRootShadowNode
                         (snd (layout lay newRootShadowNode s))) in
  let mutations := diff (heap prepared) oldRootShadowNode newRootShadowNode in
  complete diff lay oldRootShadowNode newRootShadowNode s =
  if Nat.eqb oldRootShadowNode (rootShadowNode_ s)
  then (true,
        appendTrace
          (calls (toggleEventEmitters mutations) s ++
           calls (emitLayoutEvents mutations) s ++
           match delegate_ s with
           | Some delegate => [EvShadowTreeDidCommit delegate (surfaceId_ s) mutations]
           | None => []
           end)
          (set_rootShadowNode newRootShadowNode prepared))
  else (false, prepared).
Proof.
  intros prepared mutations. unfold complete.
  unfold mbind at 1, Op_bind at 1. rewrite (run_unit (layout lay _) s).
  unfold mbind at 1, Op_bind at 1. rewrite (run_unit (sealRecursive _) _).
  fold prepared. unfold mbind at 1, Op_bind at 1, get. fold mutations.
  unfold mbind at 1, Op_bind at 1. rewrite commit_run.
  change (rootShadowNode_ prepared) with (rootShadowNode_ s).
  destruct (Nat.eqb _ _); simpl; [|done].
  unfold mbind, Op_bind, mret, Op_ret.
  rewrite (appends_run _ s _ (emitLayoutEvents_appends mutations)).
  rewrite (appends_calls_indep _ prepared s (toggleEventEmitters_appends mutations)).
  change (delegate_ (appendTrace _ _)) with (delegate_ s).
  change (surfaceId_ (appendTrace _ _)) with (surfaceId_ s).
  destruct (delegate_ s).
  - rewrite (run_unit (call _) _). unfold call, modify. simpl snd.
    unfold appendTrace, set_trace. simpl. do 2 f_equal.
    by rewrite <- !app_assoc.
  - by rewrite !appendTrace_app, app_nil_r.
Qed.

(** C2: [complete] has no partial success.  When the inner [commit] fails,
    [complete] returns false and makes no call at all, neither the layout
    callbacks nor the delegate notification, and the root slot keeps its
    value.  When the inner [commit] succeeds, [complete] returns true, the
    root slot holds the new root, and the calls made are those of the
    emitter toggling, then those of the layout-event pass, then the delegate
    notification if a delegate is set.  The commit succeeds exactly when the
    base was the current root. *)
Theorem complete_all_or_nothing (oldRootShadowNode newRootShadowNode : Ref) (s : State) :
  let prepared := snd (sealRecursive newRootShadowNode
                         (snd (layout lay newRootShadowNode s))) in
  let mutations := diff (heap prepared) oldRootShadowNode newRootShadowNode in
  let result := complete diff lay oldRootShadowNode newRootShadowNode s in
  (fst (commit oldRootShadowNode newRootShadowNode mutations prepared) = false →
     fst result = false ∧
     calls (complete diff lay oldRootShadowNode newRootShadowNode) s = [] ∧
     trace (snd result) = trace s ∧
     rootShadowNode_ (snd result) = rootShadowNode_ s) ∧
  (fst (commit oldRootShadowNode newRootShadowNode mutations prepared) = true →
     fst result = true ∧
     rootShadowNode_ (snd result) = newRootShadowNode ∧
     calls (complete diff lay oldRootShadowNode newRootShadowNode) s =
       calls (toggleEventEmitters mutations) s ++
       calls (emitLayoutEvents mutations) s ++
       match delegate_ s with
       | Some delegate => [EvShadowTreeDidCommit delegate (surfaceId_ s) mutations]
       | None => []
       end) ∧
  (fst (commit oldRootShadowNode newRootShadowNode mutations prepared) = true ↔
     oldRootShadowNode = rootShadowNode_ s).
Proof.
  intros prepared mutations result.
  assert (Hcalls : ∀ out, trace (snd result) = trace s ++ out →
            calls (complete diff lay oldRootShadowNode newRootShadowNode) s = out).
  { intros out. apply calls_trace. }
  unfold result in *. clear result. rewrite complete_run in Hcalls |- *.
  fold prepared in Hcalls |- *. fold mutations in Hcalls |- *.
  rewrite commit_run. change (rootShadowNode_ prepared) with (rootShadowNode_ s).
  destruct (Nat.eqb_spec oldRootShadowNode (rootShadowNode_ s)) as [Heq|Hne]; simpl.
  - split; [done|]. split; [|done]. intros _. split; [done|]. split; [done|].
    by apply Hcalls.
  - split; [|split; [done|by split]]. intros _. split; [done|].
    split; [|done]. apply Hcalls. simpl. by rewrite app_nil_r.
Qed.

Lemma complete_rootChildNodes_spec (rootChildNodes : option (list Ref)) (s : State) :
  let newRootShadowNode := fresh (dom (heap s)) in
  let result := complete_rootChildNodes diff lay rootChildNodes s in
  let mutations :=
    diff (heap (snd result)) (rootShadowNode_ s) newRootShadowNode in
  fst result = true ∧
  rootShadowNode_ (snd result) = newRootShadowNode ∧
  (newRootShadowNode ∉ dom (heap s)) ∧
  getChildren (heap (snd result)) newRootShadowNode =
    default (getChildren (heap s) (rootShadowNode_ s)) rootChildNodes ∧
  heap_preserved (heap s) (heap (snd result)) ∧
  calls (complete_rootChildNodes diff lay rootChildNodes) s =
    calls (toggleEventEmitters mutations) s ++
    calls (emitLayoutEvents mutations) s ++
    match delegate_ s with
    | Some delegate => [EvShadowTreeDidCommit delegate (surfaceId_ s) mutations]
    | None => []
    end.
Proof.
  intros new result mutations.
  set (fragment := {| ShadowNodeFragment.tag := None; ShadowNodeFragment.rootTag := None;
                      ShadowNodeFragment.props := None;
                      ShadowNodeFragment.eventEmitter := None;
                      ShadowNodeFragment.children := rootChildNodes |}).
  set (node := cloneWith (deref (heap s) (rootShadowNode_ s)) fragment).
  set (s1 := set_heap (<[new := node]> (heap s)) s).
  assert (Hresult : result = complete diff lay (rootShadowNode_ s) new s1) by done.
  assert (Hfresh : new ∉ dom (heap s)) by apply is_fresh.
  assert (Hcalls : ∀ out, trace (snd result) = trace s ++ out →
            calls (complete_rootChildNodes diff lay rootChildNodes) s = out).
  { intros out. apply calls_trace. }
  unfold mutations. clear mutations. rewrite Hresult in *. rewrite complete_run in *.
  change (rootShadowNode_ s1) with (rootShadowNode_ s) in *.
  rewrite Nat.eqb_refl in *. simpl fst in *. simpl snd in *.
  set (prepared := snd (sealRecursive new (snd (layout lay new s1)))) in *.
  assert (Hprep : heap_preserved (heap s1) (heap prepared)) by apply prepared_preserved.
  split; [done|]. split; [done|]. split; [done|].
  change (heap (appendTrace _ _)) with (heap prepared) in *.
  split; [|split].
  - rewrite (heap_preserved_getChildren _ _ new node Hprep);
      [|apply lookup_insert_eq].
    unfold node. simpl. unfold getChildren. by destruct rootChildNodes.
  - eapply heap_preserved_trans; [|exact Hprep].
    apply heap_preserved_subseteq, insert_subseteq. by apply not_elem_of_dom.
  - apply Hcalls. simpl.
    rewrite (appends_calls_indep _ s1 s (toggleEventEmitters_appends _)).
    by rewrite (appends_calls_indep _ s1 s (emitLayoutEvents_appends _)).
Qed.

(** Laying out and sealing the candidate leaves the nodes outside its tree
    as they are. *)
Lemma prepared_lookup_outside root s r :
  r ≠ root →
  ¬ descendant (heap (snd (sealRecursive root (snd (layout lay root s))))) root r →
  heap (snd (sealRecursive root (snd (layout lay root s)))) !! r = heap s !! r.
Proof.
  intros Hne Hnot.
  set (s1 := snd (layout lay root s)) in *.
  assert (H1 : ∀ a, getChildren (heap s1) a = getChildren (heap s) a).
  { apply heap_preserved_getChildren_eq; [apply layout_preserved|apply layout_dom]. }
  assert (H2 : ∀ a, getChildren (heap (snd (sealRecursive root s1))) a =
                     getChildren (heap s1) a).
  { apply heap_preserved_getChildren_eq;
      [apply sealRecursive_preserved|apply sealRecursive_dom]. }
  assert (Hnot1 : ¬ descendant (heap s1) root r).
  { intros Hd. apply Hnot. by eapply descendant_getChildren_eq. }
  assert (Hnot0 : ¬ descendant (heap s) root r).
  { intros Hd. apply Hnot1. by eapply descendant_getChildren_eq. }
  rewrite sealRecursive_lookup_outside by done.
  by apply layout_lookup_outside.
Qed.

Lemma complete_rootChildNodes_outside (rootChildNodes : option (list Ref))
    (s : State) (r : Ref) (n : ShadowNode) :
  let result := complete_rootChildNodes diff lay rootChildNodes s in
  heap s !! r = Some n →
  ¬ descendant (heap (snd result)) (rootShadowNode_ (snd result)) r →
  heap (snd result) !! r = Some n.
Proof.
  intros result Hr.
  set (new := fresh (dom (heap s))).
  set (fragment := {| ShadowNodeFragment.tag := None; ShadowNodeFragment.rootTag := None;
                      ShadowNodeFragment.props := None;
                      ShadowNodeFragment.eventEmitter := None;
                      ShadowNodeFragment.children := rootChildNodes |}).
  set (node := cloneWith (deref (heap s) (rootShadowNode_ s)) fragment).
  set (s1 := set_heap (<[new := node]> (heap s)) s).
  assert (Hresult : result = complete diff lay (rootShadowNode_ s) new s1) by done.
  assert (Hne : r ≠ new).
  { intros ->. by apply (is_fresh (dom (heap s))), elem_of_dom. }
  rewrite Hresult, complete_run.
  change (rootShadowNode_ s1) with (rootShadowNode_ s). rewrite Nat.eqb_refl.
  set (prepared := snd (sealRecursive new (snd (layout lay new s1)))).
  cbn [snd heap rootShadowNode_ appendTrace set_trace set_rootShadowNode].
  intros Hnot. unfold prepared in *. rewrite prepared_lookup_outside by done.
  simpl. by rewrite lookup_insert_ne.
Qed.

(** C8: run without an interleaved commit, the teardown commit of the
    destructor returns true.  The base it reads is the root the inner
    [commit] compares with, so the new root, a fresh clone of the current
    root with an empty child list, is installed; the mutations are the diff
    of the old root against it, and the old emitter of every Delete mutation
    of that diff is disabled.  What decides the outcome is the root slot at
    the time of the inner [complete]: from any state whose root slot still
    holds the base that was read it returns true, and from a state where
    another commit has replaced the root it returns false. *)
Theorem teardown_commit_succeeds (s : State) :
  let result := complete_rootChildNodes diff lay (Some []) s in
  let mutations :=
    diff (heap (snd result)) (rootShadowNode_ s) (rootShadowNode_ (snd result)) in
  (∀ newRootShadowNode later,
     fst (complete diff lay (rootShadowNode_ s) newRootShadowNode later) = true ↔
     rootShadowNode_ later = rootShadowNode_ s) ∧
  fst result = true ∧
  ShadowTree_delete diff lay s = (tt, snd result) ∧
  (rootShadowNode_ (snd result) ∉ dom (heap s)) ∧
  getChildren (heap (snd result)) (rootShadowNode_ (snd result)) = [] ∧
  calls (complete_rootChildNodes diff lay (Some [])) s =
    calls (toggleEventEmitters mutations) s ++
    calls (emitLayoutEvents mutations) s ++
    match delegate_ s with
    | Some delegate => [EvShadowTreeDidCommit delegate (surfaceId_ s) mutations]
    | None => []
    end ∧
  (∀ m, m ∈ mutations → type m = Delete →
     EvDisable (eventEmitter (oldChildShadowView m))
       ∈ calls (complete_rootChildNodes diff lay (Some [])) s).
Proof.
  intros result mutations.
  destruct (complete_rootChildNodes_spec (Some []) s)
    as (Hok & Hroot & Hfresh & Hchildren & _ & Hcalls).
  fold result in Hok, Hroot, Hchildren, Hcalls.
  unfold mutations. rewrite Hroot.
  split.
  { intros new later. rewrite complete_run.
    destruct (Nat.eqb_spec (rootShadowNode_ s) (rootShadowNode_ later)); naive_solver. }
  split; [done|]. split.
  { unfold ShadowTree_delete, mbind, Op_bind, mret, Op_ret. fold result.
    by destruct result. }
  split; [done|]. split; [done|]. split; [done|].
  intros m Hm Hdelete. rewrite Hcalls.
  rewrite toggleEventEmitters_calls.
  apply elem_of_app. left. apply elem_of_app. right.
  apply (list_elem_of_fmap_2' _ _ m); [|done].
  apply list_elem_of_In, filter_In. split; [by apply list_elem_of_In|].
  by rewrite Hdelete.
Qed.

Lemma completeByReplacingShadowNode_no_path oldShadowNode newShadowNode s :
  snd (constructAncestorPath (heap s) oldShadowNode (rootShadowNode_ s)) = [] →
  completeByReplacingShadowNode diff lay oldShadowNode newShadowNode s = (false, s).
Proof.
  intros Hpath.
  unfold completeByReplacingShadowNode, getRootShadowNode, get, mbind, Op_bind,
    mret, Op_ret.
  by rewrite Hpath.
Qed.

(** Replacing the root itself finds it with no ancestor, and fails too. *)
Lemma completeByReplacingShadowNode_root newShadowNode s :
  completeByReplacingShadowNode diff lay (rootShadowNode_ s) newShadowNode s = (false, s).
Proof.
  apply completeByReplacingShadowNode_no_path. unfold constructAncestorPath.
  destruct (size (heap s)); simpl; by rewrite decide_True.
Qed.

(** C6: when the old node is not below the current root, the ancestor path
    comes back empty and [completeByReplacingShadowNode] returns false and
    leaves the state as it was: the root slot keeps its value, no node is
    created and no call is made. *)
Theorem completeByReplacingShadowNode_unreachable
    (oldShadowNode newShadowNode : Ref) (s : State) :
  ¬ descendant (heap s) (rootShadowNode_ s) oldShadowNode →
  snd (constructAncestorPath (heap s) oldShadowNode (rootShadowNode_ s)) = [] ∧
  completeByReplacingShadowNode diff lay oldShadowNode newShadowNode s = (false, s) ∧
  calls (completeByReplacingShadowNode diff lay oldShadowNode newShadowNode) s = [].
Proof.
  intros Hnot.
  pose proof (constructAncestorPath_unreachable _ _ _ Hnot) as Hpath.
  pose proof (completeByReplacingShadowNode_no_path _ newShadowNode _ Hpath) as Hrun.
  split; [done|]. split; [done|].
  apply calls_trace. by rewrite Hrun, app_nil_r.
Qed.

(** The rebuild loop only creates nodes: it changes nothing of the state but
    the store, and every node of the store is found again as it was. *)
Lemma replaceAlongAncestors_no_mutation ancestors oldChild newChild sharedChildren s :
  let rebuilt := replaceAlongAncestors ancestors oldChild newChild sharedChildren s in
  snd rebuilt = set_heap (heap (snd rebuilt)) s ∧ heap s ⊆ heap (snd rebuilt).
Proof.
  revert oldChild newChild sharedChildren s.
  induction ancestors as [|ancestor ancestors IH];
    intros oldChild newChild sharedChildren s; simpl.
  - split; [by destruct s|done].
  - unfold mbind, Op_bind, get. rewrite clone_run.
    match goal with
    | |- context [replaceAlongAncestors ancestors ?o ?n ?c ?s1] =>
        destruct (IH o n c s1) as [Hframe Hsub]; revert Hframe Hsub;
        generalize (replaceAlongAncestors ancestors o n c s1)
    end.
    intros rebuilt Hframe Hsub. split; [by rewrite Hframe|].
    etrans; [|exact Hsub]. simpl.
    apply insert_subseteq, not_elem_of_dom, is_fresh.
Qed.

(** C7, as the code has it: with the distinct children [A; B; C] under the
    current root, [B] not below [A], replacing [B] by [B'] succeeds and
    commits a root whose children are [A; B'; C], with the addresses [A] and
    [C] the root had before.  The committed root is a new object.  The
    rebuild loop hands on the list [A; B'; C] and writes to no existing
    node: it only adds clones to the store.  Over the whole call every node
    that existed before keeps its props, emitter and child list, and every
    node that was sealed, as the nodes of a committed tree are, is left
    exactly as it was; so is every node that is not in the committed tree.
    The writes [complete] makes in place, layout and sealing, reach only
    unsealed nodes of the committed tree: the replacement and what it
    brings. *)
Theorem completeByReplacingShadowNode_copy_on_write
    (A B C B' : Ref) (rootNode : ShadowNode) (s : State) :
  heap s !! rootShadowNode_ s = Some rootNode →
  children_ rootNode = [A; B; C] →
  A ≠ B → C ≠ B → B ≠ rootShadowNode_ s →
  ¬ descendant (heap s) A B →
  let rebuilt :=
    replaceAlongAncestors
      (snd (constructAncestorPath (heap s) B (rootShadowNode_ s))) B B' None s in
  let result := completeByReplacingShadowNode diff lay B B' s in
  fst result = true ∧
  getChildren (heap (snd result)) (rootShadowNode_ (snd result)) = [A; B'; C] ∧
  (rootShadowNode_ (snd result) ∉ dom (heap s)) ∧
  fst rebuilt = Some [A; B'; C] ∧
  heap s ⊆ heap (snd rebuilt) ∧
  heap_preserved (heap s) (heap (snd result)) ∧
  (∀ r n,
     heap s !! r = Some n →
     ¬ descendant (heap (snd result)) (rootShadowNode_ (snd result)) r →
     heap (snd result) !! r = Some n).
Proof.
  intros Hroot Hchildren HAB HCB HBroot Hnot rebuilt result.
  pose proof (constructAncestorPath_second_child _ _ _ A B C
                Hroot Hchildren HAB HBroot Hnot) as Hpath.
  destruct (replaceAlongAncestors_no_mutation
              (snd (constructAncestorPath (heap s) B (rootShadowNode_ s)))
              B B' None s) as [Hframe Hsub].
  fold rebuilt in Hframe, Hsub.
  assert (Hlist : fst rebuilt = Some [A; B'; C]).
  { unfold rebuilt. rewrite Hpath. simpl.
    unfold mbind, Op_bind, get, clone, make_shared, mret, Op_ret. simpl.
    rewrite (getChildren_lookup _ _ _ Hroot), Hchildren. simpl.
    by rewrite decide_False, decide_True, decide_False. }
  assert (Hresult : result =
            complete_rootChildNodes diff lay (fst rebuilt) (snd rebuilt)).
  { unfold result, completeByReplacingShadowNode, getRootShadowNode, get,
      mbind, Op_bind, mret, Op_ret.
    cbv beta iota. unfold rebuilt. by rewrite Hpath. }
  destruct (complete_rootChildNodes_spec (fst rebuilt) (snd rebuilt))
    as (Hok & Hnew & Hfresh & Hkids & Hpres & _).
  rewrite <- Hresult in Hok, Hnew, Hkids, Hpres.
  split; [done|]. split; [by rewrite Hnew, Hkids, Hlist|].
  split.
  { rewrite Hnew. intros Hin. apply Hfresh. revert Hin.
    apply subseteq_dom in Hsub. apply Hsub. }
  split; [done|]. split; [done|].
  split; [eapply heap_preserved_trans; [by apply heap_preserved_subseteq|done]|].
  intros r n Hr Hnotin. rewrite Hresult in Hnotin |- *.
  apply complete_rootChildNodes_outside; [|done].
  by eapply lookup_weaken.
Qed.

Lemma layout_lookup_root (root : Ref) (n : ShadowNode) (s : State) :
  heap s !! root = Some n → sealed_ n = false →
  getLayoutMetrics (heap (snd (layout lay root s))) root = lay (heap s) root root.
Proof.
  intros Hroot Hunsealed. simpl.
  destruct (size (heap s)) as [|fuel] eqn:Hsize.
  { apply map_size_empty_inv in Hsize. by rewrite Hsize in Hroot. }
  simpl. generalize (flat_map (subtree fuel (heap s)) (getChildren (heap s) root)).
  intros l.
  assert (Hl : ∃ n', foldr (λ a, alter (layoutNode lay (heap s) root a) a) (heap s) l
                       !! root = Some n' ∧ sealed_ n' = false).
  { induction l as [|a l (n' & Hn' & Hs')]; simpl; [eauto|].
    destruct (decide (a = root)) as [->|Hne].
    - rewrite lookup_alter_eq, Hn'. simpl. eexists. split; [done|].
      unfold layoutNode. by rewrite Hs'.
    - rewrite lookup_alter_ne by done. eauto. }
  destruct Hl as (n' & Hn' & Hs').
  unfold getLayoutMetrics, deref. rewrite lookup_alter_eq, Hn'. simpl.
  unfold layoutNode. by rewrite Hs'.
Qed.

(** C9: [measure] leaves the root slot as it is and makes no call, so that
    no commit takes place and no mutation list reaches an emitter or the
    delegate; existing nodes are preserved.  The value returned is the size
    of the frame that layout gives to a fresh clone of the current root
    whose props are the root props with the given constraints and context
    and whose children are those of the current root. *)
Theorem measure_leaves_root (lc : LayoutConstraints) (ctx : LayoutContext) (s : State) :
  let cloned := cloneRootShadowNode (rootShadowNode_ s) lc ctx s in
  let candidate := fst cloned in
  let result := measure lay lc ctx s in
  rootShadowNode_ (snd result) = rootShadowNode_ s ∧
  calls (measure lay lc ctx) s = [] ∧
  heap_preserved (heap s) (heap (snd result)) ∧
  (candidate ∉ dom (heap s)) ∧
  props_ (deref (heap (snd cloned)) candidate) =
    Some (ARootProps (RootProps_with (getRootProps (heap s) (rootShadowNode_ s)) lc ctx)) ∧
  getChildren (heap (snd cloned)) candidate = getChildren (heap s) (rootShadowNode_ s) ∧
  snd result = snd (layout lay candidate (snd cloned)) ∧
  fst result =
    Graphics.size (frame (getLayoutMetrics (heap (snd result)) candidate)) ∧
  fst result = Graphics.size (frame (lay (heap (snd cloned)) candidate candidate)).
Proof.
  intros cloned candidate result.
  set (props := Some (ARootProps
                 (RootProps_with (getRootProps (heap s) (rootShadowNode_ s)) lc ctx))).
  set (node := cloneWith (deref (heap s) (rootShadowNode_ s))
                 {| ShadowNodeFragment.tag := None; ShadowNodeFragment.rootTag := None;
                    ShadowNodeFragment.props := Some props;
                    ShadowNodeFragment.eventEmitter := None;
                    ShadowNodeFragment.children := None |}).
  assert (Hcloned : cloned =
            (fresh (dom (heap s)),
             set_heap (<[fresh (dom (heap s)) := node]> (heap s)) s)) by done.
  assert (Hnode : heap (snd cloned) !! candidate = Some node).
  { unfold candidate. rewrite Hcloned. simpl. apply lookup_insert_eq. }
  assert (Hresult : result =
            (Graphics.size (frame (getLayoutMetrics
                                     (heap (snd (layout lay candidate (snd cloned))))
                                     candidate)),
             snd (layout lay candidate (snd cloned)))).
  { unfold candidate. by rewrite Hcloned. }
  assert (Hfresh : candidate ∉ dom (heap s)).
  { unfold candidate. rewrite Hcloned. apply is_fresh. }
  split; [by rewrite Hresult, Hcloned|].
  split. { apply calls_trace. fold result. by rewrite Hresult, Hcloned, app_nil_r. }
  split.
  { rewrite Hresult. eapply heap_preserved_trans; [|apply layout_preserved].
    rewrite Hcloned. apply heap_preserved_subseteq, insert_subseteq.
    apply not_elem_of_dom, is_fresh. }
  split; [done|].
  split. { unfold deref. by rewrite Hnode. }
  split. { by rewrite (getChildren_lookup _ _ _ Hnode). }
  split; [by rewrite Hresult|].
  split; [by rewrite Hresult|].
  rewrite Hresult. unfold fst at 1.
  by rewrite (layout_lookup_root candidate node (snd cloned) Hnode eq_refl).
Qed.

End Commit.

(** ** The properties on the sample surface *)

Lemma toggleEventEmitters_enables_then_disables_witness :
  calls (toggleEventEmitters [deletedView; createdView]) freshSurface =
    [EvEnable (Some (viewEmitter 7%Z)); EvDisable (Some (viewEmitter 5%Z))] ∧
  0 < 1.
Proof.
  destruct (toggleEventEmitters_enables_then_disables
              [deletedView; createdView] freshSurface) as (_ & Hcalls & Horder).
  split; [exact Hcalls|].
  apply (Horder 1 0 (Some (viewEmitter 5%Z)) (Some (viewEmitter 7%Z)));
    vm_compute; reflexivity.
Defined.

Lemma commit_checks_base_identity_witness :
  commit 14 13 [deletedView; createdView] mountedSurface = (false, mountedSurface) ∧
  rootShadowNode_ (snd (commit 15 13 [deletedView; createdView] mountedSurface)) = 13.
Proof.
  split.
  - apply (proj1 (commit_checks_base_identity 14 13 [deletedView; createdView]
                    mountedSurface)).
    vm_compute. lia.
  - apply (proj2 (commit_checks_base_identity 15 13 [deletedView; createdView]
                    mountedSurface)).
    vm_compute. reflexivity.
Defined.

Lemma complete_all_or_nothing_witness :
  fst (complete flatDiff boxLayout 14 13 mountedSurface) = false ∧
  calls (complete flatDiff boxLayout 14 13) mountedSurface = [] ∧
  fst (complete flatDiff boxLayout 15 13 mountedSurface) = true.
Proof.
  pose proof (complete_all_or_nothing flatDiff boxLayout 14 13 mountedSurface) as Hstale.
  pose proof (complete_all_or_nothing flatDiff boxLayout 15 13 mountedSurface) as Hcurrent.
  cbv zeta in Hstale, Hcurrent.
  destruct Hstale as [Hfail _]. destruct Hcurrent as (_ & Hok & _).
  destruct Hfail as (Hfalse & Hnone & _); [vm_compute; reflexivity|].
  destruct Hok as (Htrue & _); [vm_compute; reflexivity|].
  split; [exact Hfalse|]. split; [exact Hnone|exact Htrue].
Defined.

Lemma emitLayoutEvents_insert_not_create_witness :
  EvOnLayout (viewEmitter 7%Z) metricsA
    ∈ calls (emitLayoutEvents [createdView; insertedView]) freshSurface.
Proof.
  apply (proj1 emitLayoutEvents_insert_not_create
           [createdView; insertedView] insertedView (viewEmitter 7%Z)
           {| onLayout := true; viewPropsRest := 0%Z |} freshSurface).
  - apply list_elem_of_further, list_elem_of_here.
  - reflexivity.
  - reflexivity.
  - reflexivity.
  - reflexivity.
  - vm_compute. reflexivity.
Defined.

Lemma emitLayoutEvents_props_check_witness :
  EvOnLayout (viewEmitter 8%Z) metricsB
    ∈ calls (emitLayoutEvents [updatedOtherProps]) freshSurface.
Proof.
  apply (proj1 emitLayoutEvents_props_check
           [updatedOtherProps] updatedOtherProps (viewEmitter 8%Z) freshSurface).
  - apply list_elem_of_here.
  - right. reflexivity.
  - reflexivity.
  - reflexivity.
  - vm_compute. reflexivity.
Defined.

(** On the mounted surface node [13] is in the store but not in the tree:
    the root [15] has the children [10; 11; 12], which are leaves. *)
Lemma completeByReplacingShadowNode_unreachable_witness :
  completeByReplacingShadowNode flatDiff boxLayout 13 12 mountedSurface =
    (false, mountedSurface).
Proof.
  apply (completeByReplacingShadowNode_unreachable flatDiff boxLayout 13 12
           mountedSurface).
  intros Hbelow.
  inversion Hbelow as [a c Hc | a c t Hc Hd]; subst; vm_compute in Hc.
  - apply list_elem_of_In in Hc. simpl in Hc. lia.
  - apply list_elem_of_In in Hc. simpl in Hc.
    destruct Hc as [<- | [<- | [<- | []]]];
      inversion Hd as [a' c' Hc' | a' c' t' Hc' _]; subst;
      vm_compute in Hc'; by apply not_elem_of_nil in Hc'.
Defined.

Lemma completeByReplacingShadowNode_copy_on_write_witness :
  fst (completeByReplacingShadowNode flatDiff boxLayout 11 13 mountedSurface) = true ∧
  getChildren
    (heap (snd (completeByReplacingShadowNode flatDiff boxLayout 11 13 mountedSurface)))
    (rootShadowNode_
       (snd (completeByReplacingShadowNode flatDiff boxLayout 11 13 mountedSurface)))
    = [10; 13; 12].
Proof.
  destruct (completeByReplacingShadowNode_copy_on_write flatDiff boxLayout
              10 11 12 13 (deref (heap mountedSurface) 15) mountedSurface)
    as (Hok & Hchildren & _).
  - vm_compute. reflexivity.
  - vm_compute. reflexivity.
  - lia.
  - lia.
  - vm_compute. lia.
  - intros Hbelow.
    inversion Hbelow as [a c Hc | a c t Hc _]; subst;
      vm_compute in Hc; by apply not_elem_of_nil in Hc.
  - split; [exact Hok|exact Hchildren].
Defined.

(** C7 as stated fails: the call does write to a node that existed before
    it.  On the mounted surface the replacement [13] is unsealed and not yet
    laid out when it is handed in; [complete] lays out and seals the
    candidate in place, so after the call node [13] is no longer what it
    was. *)
Lemma completeByReplacingShadowNode_writes_replacement :
  ¬ (∀ (diff : gmap Ref ShadowNode → Ref → Ref → ShadowViewMutationList)
       (lay : gmap Ref ShadowNode → Ref → Ref → LayoutMetrics)
       (A B C B' : Ref) (rootNode : ShadowNode) (s : State),
       heap s !! rootShadowNode_ s = Some rootNode →
       children_ rootNode = [A; B; C] →
       A ≠ B → C ≠ B → B ≠ rootShadowNode_ s →
       ¬ descendant (heap s) A B →
       let result := completeByReplacingShadowNode diff lay B B' s in
       fst result = true ∧
       getChildren (heap (snd result)) (rootShadowNode_ (snd result)) = [A; B'; C] ∧
       (∀ r n, heap s !! r = Some n → heap (snd result) !! r = Some n)).
Proof.
  intros Hclaim.
  pose proof (Hclaim flatDiff boxLayout 10 11 12 13
                (deref (heap mountedSurface) 15) mountedSurface) as Hmounted.
  cbv zeta in Hmounted.
  destruct Hmounted as (_ & _ & Hsame).
  - vm_compute. reflexivity.
  - vm_compute. reflexivity.
  - lia.
  - lia.
  - vm_compute. lia.
  - intros Hbelow.
    inversion Hbelow as [a c Hc | a c t Hc _]; subst;
      vm_compute in Hc; by apply not_elem_of_nil in Hc.
  - assert (Hbefore : heap mountedSurface !! 13 = Some (sampleNode 13%Z [] false))
      by (vm_compute; reflexivity).
    specialize (Hsame 13 (sampleNode 13%Z [] false) Hbefore).
    vm_compute in Hsame. discriminate Hsame.
Qed.

Lemma teardown_commit_succeeds_witness :
  EvDisable (Some (viewEmitter 10%Z))
    ∈ calls (complete_rootChildNodes flatDiff boxLayout (Some [])) mountedSurface.
Proof.
  destruct (teardown_commit_succeeds flatDiff boxLayout mountedSurface)
    as (_ & _ & _ & _ & _ & _ & Hdisabled).
  apply (Hdisabled (sampleMutation Delete
                      (viewOf (deref (heap mountedSurface) 10)) emptyShadowView)).
  - vm_compute. apply list_elem_of_here.
  - reflexivity.
Defined.

(** * Further properties of the methods *)

(** ** The layout-event notifier *)

(** X1: every call [emitLayoutEvents] makes is an [onLayout] call that a
    mutation of the list accounts for: an Insert or Update mutation whose new
    emitter is a view event emitter, whose new props, when they are view
    props, request layout events, and, for an Insert, whose metrics differ.
    The call goes to that emitter with the new metrics.  So the notifier
    never enables or disables an emitter, never notifies the delegate, and
    never calls [onLayout] for a Create, Delete or Remove mutation. *)
Theorem emitLayoutEvents_calls_accounted
    (mutations : ShadowViewMutationList) (s : State) (ev : Event) :
  ev ∈ calls (emitLayoutEvents mutations) s →
  ∃ m e,
    m ∈ mutations ∧
    (type m = Insert ∨ type m = Update) ∧
    dynamic_cast_ViewEventEmitter (eventEmitter (newChildShadowView m)) = Some e ∧
    (∀ vp, dynamic_cast_ViewProps (props (newChildShadowView m)) = Some vp →
           onLayout vp = true) ∧
    (type m = Insert →
       LayoutMetrics_eqb (layoutMetrics (oldChildShadowView m))
                         (layoutMetrics (newChildShadowView m)) = false) ∧
    ev = EvOnLayout e (layoutMetrics (newChildShadowView m)).
Proof.
  rewrite emitLayoutEvents_calls. intros Hev.
  apply list_elem_of_In, in_flat_map in Hev as (m & Hm & Hev).
  apply list_elem_of_In in Hm, Hev. exists m.
  rewrite emitLayoutEvents_one in Hev.
  destruct (type m) eqn:Hty; try by apply not_elem_of_nil in Hev.
  all: destruct (dynamic_cast_ViewEventEmitter _) as [e|];
    [|by apply not_elem_of_nil in Hev].
  all: exists e.
  all: destruct (dynamic_cast_ViewProps _) as [vp|].
  all: try (destruct (onLayout vp) eqn:Hon; [|by apply not_elem_of_nil in Hev]).
  all: simpl in Hev.
  all: try (destruct (LayoutMetrics_eqb _ _) eqn:Heqb;
            [by apply not_elem_of_nil in Hev|]).
  all: apply list_elem_of_singleton in Hev.
  all: repeat split; auto; try congruence; try done.
Qed.

(** X2: the notifier handles the mutations one by one and in order: the
    calls for a concatenation are the calls for the first list followed by
    the calls for the second, and a list gets at most one call for each of
    its mutations. *)
Theorem emitLayoutEvents_app (before after : ShadowViewMutationList) (s : State) :
  calls (emitLayoutEvents (before ++ after)) s =
    calls (emitLayoutEvents before) s ++ calls (emitLayoutEvents after) s ∧
  length (calls (emitLayoutEvents before) s) ≤ length before.
Proof.
  split.
  - by rewrite !emitLayoutEvents_calls, flat_map_app.
  - rewrite emitLayoutEvents_calls.
    induction before as [|m before IH]; simpl; [done|].
    rewrite length_app. assert (length (calls (emitLayoutEvents [m]) s) ≤ 1); [|lia].
    rewrite emitLayoutEvents_one. repeat case_match; simpl; lia.
Qed.

(** ** The event-emitter lifecycle manager *)

Lemma filter_map_permutation_app {A B : Type} (p q : A → bool) (f g : A → B)
    (l1 l2 : list A) :
  map f (List.filter p (l1 ++ l2)) ++ map g (List.filter q (l1 ++ l2)) ≡ₚ
  (map f (List.filter p l1) ++ map g (List.filter q l1)) ++
  (map f (List.filter p l2) ++ map g (List.filter q l2)).
Proof.
  rewrite !List.filter_app, !map_app.
  rewrite <- !app_assoc. apply Permutation_app_head.
  rewrite !app_assoc. apply Permutation_app_tail, Permutation_app_comm.
Qed.

(** X3: toggling is a property of the whole batch.  Toggling a batch that is
    split in two makes the same calls as toggling the two parts one after
    the other, up to their order; the order is the same too when the first
    part deletes nothing or the second part creates nothing. *)
Theorem toggleEventEmitters_split (first second : ShadowViewMutationList) (s : State) :
  calls (toggleEventEmitters (first ++ second)) s ≡ₚ
    calls (toggleEventEmitters first) s ++ calls (toggleEventEmitters second) s ∧
  (List.filter (λ m, MutationType_eqb (type m) Delete) first = [] ∨
   List.filter (λ m, MutationType_eqb (type m) Create) second = [] →
   calls (toggleEventEmitters (first ++ second)) s =
     calls (toggleEventEmitters first) s ++ calls (toggleEventEmitters second) s).
Proof.
  rewrite !toggleEventEmitters_calls. split.
  - apply filter_map_permutation_app.
  - rewrite !List.filter_app, !map_app.
    intros [-> | ->]; simpl; by rewrite ?app_nil_r, <- ?app_assoc.
Qed.

(** ** The commit coordinator *)

(** X4: of two commits built on the same base, the second is rejected.  Once
    [commit] has replaced the base by a different root, a further [commit]
    from that base returns false and changes nothing, whatever candidate and
    mutations it brings. *)
Theorem commit_same_base_twice
    (base winner loser : Ref) (mutations mutations' : ShadowViewMutationList)
    (s : State) :
  base = rootShadowNode_ s → winner ≠ base →
  let s' := snd (commit base winner mutations s) in
  fst (commit base winner mutations s) = true ∧
  commit base loser mutations' s' = (false, s') ∧
  rootShadowNode_ s' = winner.
Proof.
  intros -> Hne s'. unfold s'. rewrite !commit_run, Nat.eqb_refl. simpl.
  split; [done|]. split; [|done].
  apply Nat.eqb_neq in Hne. rewrite Nat.eqb_sym in Hne. by rewrite Hne.
Qed.

(** ** What layout and sealing leave at the candidate root *)

Lemma foldr_alter_lookup_head (write : Ref → ShadowNode → ShadowNode)
    (l : list Ref) (h : gmap Ref ShadowNode) (r : Ref) (n : ShadowNode) :
  h !! r = Some n →
  (∀ x, write r (write r x) = write r x) →
  foldr (λ a, alter (write a) a) h (r :: l) !! r = Some (write r n).
Proof.
  intros Hr Hidem. simpl. rewrite lookup_alter_eq.
  assert (Hl : foldr (λ a, alter (write a) a) h l !! r = Some n ∨
               foldr (λ a, alter (write a) a) h l !! r = Some (write r n)).
  { induction l as [|a l IH]; simpl; [by left|].
    destruct (decide (a = r)) as [->|Hne].
    - rewrite lookup_alter_eq. destruct IH as [-> | ->]; simpl; right;
        by rewrite ?Hidem.
    - by rewrite lookup_alter_ne. }
  destruct Hl as [-> | ->]; simpl; by rewrite ?Hidem.
Qed.

Lemma subtree_head (h : gmap Ref ShadowNode) (r : Ref) (n : ShadowNode) :
  h !! r = Some n → ∃ l, subtree (size h) h r = r :: l.
Proof.
  intros Hr. destruct (size h) eqn:Hsize.
  - apply map_size_empty_inv in Hsize. by rewrite Hsize in Hr.
  - simpl. eauto.
Qed.

Lemma seal_idemp n : seal (seal n) = seal n.
Proof. reflexivity. Qed.

Lemma sealRecursive_lookup_root (r : Ref) (n : ShadowNode) (s : State) :
  heap s !! r = Some n → heap (snd (sealRecursive r s)) !! r = Some (seal n).
Proof.
  intros Hr. simpl. destruct (subtree_head _ _ _ Hr) as [l ->].
  by apply (foldr_alter_lookup_head (λ _, seal)).
Qed.

Section Further.

Context (diff : gmap Ref ShadowNode → Ref → Ref → ShadowViewMutationList).
Context (lay : gmap Ref ShadowNode → Ref → Ref → LayoutMetrics).

Lemma layoutNode_idemp h root a n :
  layoutNode lay h root a (layoutNode lay h root a n) = layoutNode lay h root a n.
Proof.
  unfold layoutNode. destruct (sealed_ n) eqn:Hs; [by rewrite Hs|].
  simpl. by rewrite Hs.
Qed.

Lemma layout_lookup_root_node (r : Ref) (n : ShadowNode) (s : State) :
  heap s !! r = Some n →
  heap (snd (layout lay r s)) !! r = Some (layoutNode lay (heap s) r r n).
Proof.
  intros Hr. simpl. destruct (subtree_head _ _ _ Hr) as [l ->].
  apply (foldr_alter_lookup_head (layoutNode lay (heap s) r)); [done|].
  intros x. apply layoutNode_idemp.
Qed.

Lemma prepared_lookup_root (r : Ref) (n : ShadowNode) (s : State) :
  heap s !! r = Some n →
  heap (snd (sealRecursive r (snd (layout lay r s)))) !! r =
    Some (seal (layoutNode lay (heap s) r r n)).
Proof.
  intros Hr. apply sealRecursive_lookup_root. by apply layout_lookup_root_node.
Qed.

(** X7: a rejected [complete] is not a no-op on its candidate.  When the
    base is stale, [complete] returns false, makes no call and leaves the
    root slot alone, but it has laid out and sealed the candidate first: the
    candidate root is left sealed, with the metrics layout gave it if it was
    still unsealed, while its identity, props, emitter and children are as
    before. *)
Theorem complete_rejected_seals_candidate
    (oldRootShadowNode newRootShadowNode : Ref) (n : ShadowNode) (s : State) :
  oldRootShadowNode ≠ rootShadowNode_ s →
  heap s !! newRootShadowNode = Some n →
  let result := complete diff lay oldRootShadowNode newRootShadowNode s in
  fst result = false ∧
  rootShadowNode_ (snd result) = rootShadowNode_ s ∧
  trace (snd result) = trace s ∧
  heap (snd result) !! newRootShadowNode =
    Some (seal (layoutNode lay (heap s) newRootShadowNode newRootShadowNode n)) ∧
  sealed_ (deref (heap (snd result)) newRootShadowNode) = true ∧
  (sealed_ n = false →
   getLayoutMetrics (heap (snd result)) newRootShadowNode =
     lay (heap s) newRootShadowNode newRootShadowNode) ∧
  getChildren (heap (snd result)) newRootShadowNode = children_ n.
Proof.
  intros Hne Hn result. unfold result. rewrite complete_run.
  apply Nat.eqb_neq in Hne. rewrite Hne.
  pose proof (prepared_lookup_root newRootShadowNode n s Hn) as Hroot.
  cbn [fst snd]. split; [done|]. split; [done|]. split; [done|].
  split; [done|].
  unfold getLayoutMetrics, getChildren, deref. rewrite Hroot. simpl.
  split; [done|]. split.
  - intros Hunsealed. unfold layoutNode. by rewrite Hunsealed.
  - unfold layoutNode. by destruct (sealed_ n).
Qed.

(** X8: [complete(rootChildNodes)] installs a new object that is the current
    root cloned with the given child list, then laid out and sealed; tag,
    root tag, props and emitter are those of the old root.  With a list the
    new root has exactly that list as its children; with a null pointer it
    keeps the children of the old root. *)
Theorem complete_rootChildNodes_installs
    (rootChildNodes : option (list Ref)) (s : State) :
  let old := deref (heap s) (rootShadowNode_ s) in
  let result := complete_rootChildNodes diff lay rootChildNodes s in
  let installed := deref (heap (snd result)) (rootShadowNode_ (snd result)) in
  fst result = true ∧
  (rootShadowNode_ (snd result) ∉ dom (heap s)) ∧
  is_Some (heap (snd result) !! rootShadowNode_ (snd result)) ∧
  tag_ installed = tag_ old ∧
  rootTag_ installed = rootTag_ old ∧
  props_ installed = props_ old ∧
  eventEmitter_ installed = eventEmitter_ old ∧
  children_ installed = default (children_ old) rootChildNodes ∧
  sealed_ installed = true ∧
  layoutMetrics_ installed =
    lay (heap (snd (clone (rootShadowNode_ s)
                      {| ShadowNodeFragment.tag := None;
                         ShadowNodeFragment.rootTag := None;
                         ShadowNodeFragment.props := None;
                         ShadowNodeFragment.eventEmitter := None;
                         ShadowNodeFragment.children := rootChildNodes |} s)))
        (rootShadowNode_ (snd result)) (rootShadowNode_ (snd result)).
Proof.
  intros old result installed.
  set (new := fresh (dom (heap s))).
  set (fragment := {| ShadowNodeFragment.tag := None; ShadowNodeFragment.rootTag := None;
                      ShadowNodeFragment.props := None;
                      ShadowNodeFragment.eventEmitter := None;
                      ShadowNodeFragment.children := rootChildNodes |}).
  set (node := cloneWith old fragment).
  set (s1 := set_heap (<[new := node]> (heap s)) s).
  assert (Hclone : clone (rootShadowNode_ s) fragment s = (new, s1)) by done.
  assert (Hresult : result = complete diff lay (rootShadowNode_ s) new s1) by done.
  assert (Hnode : heap s1 !! new = Some node) by apply lookup_insert_eq.
  pose proof (prepared_lookup_root new node s1 Hnode) as Hroot.
  unfold installed. rewrite Hclone, Hresult, complete_run.
  change (rootShadowNode_ s1) with (rootShadowNode_ s). rewrite Nat.eqb_refl.
  set (prepared := snd (sealRecursive new (snd (layout lay new s1)))) in *.
  cbn [fst snd heap rootShadowNode_ appendTrace set_trace set_rootShadowNode].
  unfold deref at 1 2 3 4 5 6 7. rewrite Hroot. simpl.
  split; [done|]. split; [apply is_fresh|]. split; [done|].
  repeat (split; [done|]).
  unfold layoutNode. simpl. done.
Qed.

(** ** How the entry points run *)

Lemma complete_frame (oldRootShadowNode newRootShadowNode : Ref) (s : State) :
  let result := complete diff lay oldRootShadowNode newRootShadowNode s in
  surfaceId_ (snd result) = surfaceId_ s ∧
  delegate_ (snd result) = delegate_ s ∧
  heap (snd result) =
    heap (snd (sealRecursive newRootShadowNode (snd (layout lay newRootShadowNode s)))) ∧
  fst result = Nat.eqb oldRootShadowNode (rootShadowNode_ s) ∧
  rootShadowNode_ (snd result) =
    (if Nat.eqb oldRootShadowNode (rootShadowNode_ s)
     then newRootShadowNode else rootShadowNode_ s).
Proof.
  intros result. unfold result. rewrite complete_run.
  by destruct (Nat.eqb _ _).
Qed.

(** Every entry point that commits builds its candidate as a clone of the
    current root and completes against the root it has just read. *)
Lemma complete_clone_root (fragment : ShadowNodeFragment.t) (s : State) :
  let new := fresh (dom (heap s)) in
  let node := cloneWith (deref (heap s) (rootShadowNode_ s)) fragment in
  let s1 := set_heap (<[new := node]> (heap s)) s in
  let result := complete diff lay (rootShadowNode_ s) new s1 in
  fst result = true ∧
  rootShadowNode_ (snd result) = new ∧
  heap (snd result) !! new = Some (seal (setLayoutMetrics (lay (heap s1) new new) node)) ∧
  surfaceId_ (snd result) = surfaceId_ s ∧
  delegate_ (snd result) = delegate_ s ∧
  heap_preserved (heap s) (heap (snd result)).
Proof.
  intros new node s1 result.
  destruct (complete_frame (rootShadowNode_ s) new s1)
    as (Hsid & Hdel & Hheap & Hok & Hroot).
  fold result in Hsid, Hdel, Hheap, Hok, Hroot.
  change (rootShadowNode_ s1) with (rootShadowNode_ s) in Hok, Hroot.
  rewrite Nat.eqb_refl in Hok, Hroot.
  split; [done|]. split; [done|]. rewrite Hheap.
  split.
  { rewrite (prepared_lookup_root new node s1) by apply lookup_insert_eq.
    done. }
  split; [done|]. split; [done|].
  eapply heap_preserved_trans; [|apply prepared_preserved].
  apply heap_preserved_subseteq, insert_subseteq, not_elem_of_dom, is_fresh.
Qed.

Lemma completeByReplacingShadowNode_run oldShadowNode newShadowNode s :
  let ancestors :=
    snd (constructAncestorPath (heap s) oldShadowNode (rootShadowNode_ s)) in
  let rebuilt := replaceAlongAncestors ancestors oldShadowNode newShadowNode None s in
  completeByReplacingShadowNode diff lay oldShadowNode newShadowNode s =
  if Nat.eqb (length ancestors) 0 then (false, s)
  else complete_rootChildNodes diff lay (fst rebuilt) (snd rebuilt).
Proof.
  intros ancestors rebuilt.
  unfold completeByReplacingShadowNode, getRootShadowNode, get,
    mbind, Op_bind, mret, Op_ret.
  cbv beta iota. fold ancestors. destruct (Nat.eqb _ _); [done|].
  fold rebuilt. by destruct rebuilt.
Qed.

Lemma emitLayoutEvents_calls_onLayout mutations s :
  Forall (λ ev, is_onLayout ev = true) (calls (emitLayoutEvents mutations) s).
Proof.
  rewrite emitLayoutEvents_calls. induction mutations as [|m l IH]; simpl; [done|].
  apply Forall_app. split; [|done]. rewrite emitLayoutEvents_one.
  repeat case_match; by repeat constructor.
Qed.

Lemma toggleEventEmitters_calls_toggle mutations s :
  Forall (λ ev, is_toggle ev = true) (calls (toggleEventEmitters mutations) s).
Proof.
  rewrite toggleEventEmitters_calls. apply Forall_app.
  split; apply Forall_forall; intros ev Hev;
    apply list_elem_of_fmap in Hev as (m & -> & _); done.
Qed.

(** ** Committing, continued *)

(** X5: two [complete] calls built on the same base have one winner.  After
    a [complete] from the current root has installed a different root, a
    [complete] from the old base returns false, makes no call and leaves the
    winner in the root slot, while a [complete] built on the winner succeeds
    and installs its candidate. *)
Theorem complete_same_base_twice (base winner loser : Ref) (s : State) :
  base = rootShadowNode_ s → winner ≠ base →
  let s' := snd (complete diff lay base winner s) in
  fst (complete diff lay base winner s) = true ∧
  rootShadowNode_ s' = winner ∧
  fst (complete diff lay base loser s') = false ∧
  calls (complete diff lay base loser) s' = [] ∧
  rootShadowNode_ (snd (complete diff lay base loser s')) = winner ∧
  (∀ next,
     fst (complete diff lay winner next s') = true ∧
     rootShadowNode_ (snd (complete diff lay winner next s')) = next).
Proof.
  intros -> Hne s'.
  destruct (complete_frame (rootShadowNode_ s) winner s) as (_ & _ & _ & Hok & Hroot).
  fold s' in Hroot. rewrite Nat.eqb_refl in Hok, Hroot.
  split; [done|]. split; [done|].
  assert (Hstale : Nat.eqb (rootShadowNode_ s) (rootShadowNode_ s') = false).
  { rewrite Hroot. apply Nat.eqb_neq. congruence. }
  destruct (complete_frame (rootShadowNode_ s) loser s') as (_ & _ & _ & Hok' & Hroot').
  rewrite Hstale in Hok', Hroot'.
  split; [done|]. split.
  { apply calls_trace. rewrite complete_run, Hstale. simpl. by rewrite app_nil_r. }
  split; [congruence|].
  intros next.
  destruct (complete_frame winner next s') as (_ & _ & _ & Hok'' & Hroot'').
  rewrite Hroot, Nat.eqb_refl in Hok'', Hroot''. done.
Qed.

(** X6: a successful [complete] makes its calls in three phases that do not
    mix: first the enables and disables of the emitter toggling, then the
    [onLayout] calls of the layout-event pass, and last, when a delegate is
    set, the single notification of the delegate with the surface id and the
    mutation list. *)
Theorem complete_phases (oldRootShadowNode newRootShadowNode : Ref) (s : State) :
  oldRootShadowNode = rootShadowNode_ s →
  ∃ toggles layouts mutations,
    calls (complete diff lay oldRootShadowNode newRootShadowNode) s =
      toggles ++ layouts ++
      match delegate_ s with
      | Some delegate => [EvShadowTreeDidCommit delegate (surfaceId_ s) mutations]
      | None => []
      end ∧
    Forall (λ ev, is_toggle ev = true) toggles ∧
    Forall (λ ev, is_onLayout ev = true) layouts ∧
    toggles = calls (toggleEventEmitters mutations) s ∧
    layouts = calls (emitLayoutEvents mutations) s.
Proof.
  intros ->. eexists _, _, _. split; [|split; [|split; [|split; reflexivity]]].
  - apply calls_trace. rewrite complete_run, Nat.eqb_refl. reflexivity.
  - apply toggleEventEmitters_calls_toggle.
  - apply emitLayoutEvents_calls_onLayout.
Qed.
(** ** Re-layout under new constraints *)

(** X9: [constraintLayout] succeeds and installs a new object, the current
    root cloned with the given constraints and context in its props, laid
    out and sealed.  Reading the root props back gives the old root props
    with exactly those constraints and that context; tag, emitter and
    children are those of the old root, and every existing node is
    preserved. *)
Theorem constraintLayout_installs (lc : LayoutConstraints) (ctx : LayoutContext)
    (s : State) :
  let old := deref (heap s) (rootShadowNode_ s) in
  let result := constraintLayout diff lay lc ctx s in
  let installed := deref (heap (snd result)) (rootShadowNode_ (snd result)) in
  fst result = true ∧
  (rootShadowNode_ (snd result) ∉ dom (heap s)) ∧
  getRootProps (heap (snd result)) (rootShadowNode_ (snd result)) =
    RootProps_with (getRootProps (heap s) (rootShadowNode_ s)) lc ctx ∧
  layoutConstraints (getRootProps (heap (snd result)) (rootShadowNode_ (snd result))) = lc ∧
  layoutContext (getRootProps (heap (snd result)) (rootShadowNode_ (snd result))) = ctx ∧
  tag_ installed = tag_ old ∧
  eventEmitter_ installed = eventEmitter_ old ∧
  children_ installed = children_ old ∧
  sealed_ installed = true ∧
  heap_preserved (heap s) (heap (snd result)).
Proof.
  intros old result installed.
  set (fragment :=
         {| ShadowNodeFragment.tag := None; ShadowNodeFragment.rootTag := None;
            ShadowNodeFragment.props :=
              Some (Some (ARootProps
                            (RootProps_with (getRootProps (heap s) (rootShadowNode_ s))
                               lc ctx)));
            ShadowNodeFragment.eventEmitter := None;
            ShadowNodeFragment.children := None |}).
  destruct (complete_clone_root fragment s)
    as (Hok & Hroot & Hnode & _ & _ & Hpres).
  change (complete diff lay (rootShadowNode_ s) (fresh (dom (heap s))) _)
    with result in Hok, Hroot, Hnode, Hpres.
  unfold installed, getRootProps, deref. rewrite Hroot, Hnode. simpl.
  split; [done|]. split; [apply is_fresh|]. done.
Qed.

(** X10: [measure] predicts [constraintLayout].  From the same state and
    with the same constraints and context, the size [measure] returns is the
    size of the frame of the root that [constraintLayout] installs. *)
Theorem measure_predicts_constraintLayout (lc : LayoutConstraints)
    (ctx : LayoutContext) (s : State) :
  let committed := snd (constraintLayout diff lay lc ctx s) in
  fst (measure lay lc ctx s) =
  Graphics.size (frame (getLayoutMetrics (heap committed) (rootShadowNode_ committed))).
Proof.
  intros committed.
  set (fragment :=
         {| ShadowNodeFragment.tag := None; ShadowNodeFragment.rootTag := None;
            ShadowNodeFragment.props :=
              Some (Some (ARootProps
                            (RootProps_with (getRootProps (heap s) (rootShadowNode_ s))
                               lc ctx)));
            ShadowNodeFragment.eventEmitter := None;
            ShadowNodeFragment.children := None |}).
  set (new := fresh (dom (heap s))).
  set (node := cloneWith (deref (heap s) (rootShadowNode_ s)) fragment).
  set (s1 := set_heap (<[new := node]> (heap s)) s).
  destruct (complete_clone_root fragment s) as (_ & Hroot & Hnode & _).
  change (snd (complete diff lay (rootShadowNode_ s) (fresh (dom (heap s))) _))
    with committed in Hroot, Hnode.
  fold new node s1 in Hroot, Hnode.
  assert (Hmeasure : fst (measure lay lc ctx s) =
            Graphics.size (frame (getLayoutMetrics (heap (snd (layout lay new s1))) new)))
    by done.
  rewrite Hmeasure.
  unfold getLayoutMetrics, deref.
  rewrite (layout_lookup_root_node new node s1) by apply lookup_insert_eq.
  by rewrite Hroot, Hnode.
Qed.

(** ** The root slot never dangles *)

Lemma rootInvariant_heap_preserved (s s' : State) :
  rootInvariant s →
  heap_preserved (heap s) (heap s') →
  rootShadowNode_ s' = rootShadowNode_ s →
  surfaceId_ s' = surfaceId_ s →
  rootInvariant s'.
Proof.
  intros (n & rp & Hn & Htag & Hrtag & Hprops & Hem) Hpres Hroot Hsid.
  destruct (Hpres _ _ Hn) as (n' & Hn' & Htag' & Hrtag' & Hprops' & Hem' & _).
  exists n', rp. rewrite Hroot, Hsid. repeat split; congruence.
Qed.

Lemma rootInvariant_complete_clone_root (fragment : ShadowNodeFragment.t) (s : State) :
  ShadowNodeFragment.tag fragment = None →
  ShadowNodeFragment.rootTag fragment = None →
  ShadowNodeFragment.eventEmitter fragment = None →
  (ShadowNodeFragment.props fragment = None ∨
   ∃ rp, ShadowNodeFragment.props fragment = Some (Some (ARootProps rp))) →
  rootInvariant s →
  rootInvariant
    (snd (complete diff lay (rootShadowNode_ s) (fresh (dom (heap s)))
            (set_heap (<[fresh (dom (heap s)) :=
                           cloneWith (deref (heap s) (rootShadowNode_ s)) fragment]>
                         (heap s)) s))).
Proof.
  intros Htag Hrtag Hem Hprops (n & rp & Hn & Hntag & Hnrtag & Hnprops & Hnem).
  destruct (complete_clone_root fragment s) as (_ & Hroot & Hnode & Hsid & _).
  unfold rootInvariant. rewrite Hroot, Hnode, Hsid.
  unfold deref. rewrite Hn.
  destruct Hprops as [Hprops | [rp' Hprops]];
    [exists (seal (setLayoutMetrics
                     (lay (<[fresh (dom (heap s)) := cloneWith n fragment]> (heap s))
                          (fresh (dom (heap s))) (fresh (dom (heap s))))
                     (cloneWith n fragment))), rp
    |exists (seal (setLayoutMetrics
                     (lay (<[fresh (dom (heap s)) := cloneWith n fragment]> (heap s))
                          (fresh (dom (heap s))) (fresh (dom (heap s))))
                     (cloneWith n fragment))), rp'];
    (split; [reflexivity|]); simpl; rewrite Htag, Hrtag, Hem, Hprops; simpl;
    repeat split; done.
Qed.

(** X11: the root slot always holds a live node bound to the surface.  The
    constructor leaves in the slot a node of the store that carries the
    surface id as tag and root tag, [RootProps], and the no-op view event
    emitter; [measure], [constraintLayout], [complete] with a child list,
    [completeByReplacingShadowNode], the destructor's commit and
    [setDelegate] all keep it so. *)
Theorem rootInvariant_kept :
  (∀ surfaceId lc ctx h, rootInvariant (ShadowTree_new surfaceId lc ctx h)) ∧
  (∀ s, rootInvariant s →
     (∀ lc ctx, rootInvariant (snd (measure lay lc ctx s))) ∧
     (∀ lc ctx, rootInvariant (snd (constraintLayout diff lay lc ctx s))) ∧
     (∀ rootChildNodes,
        rootInvariant (snd (complete_rootChildNodes diff lay rootChildNodes s))) ∧
     (∀ oldShadowNode newShadowNode,
        rootInvariant
          (snd (completeByReplacingShadowNode diff lay oldShadowNode newShadowNode s))) ∧
     rootInvariant (snd (ShadowTree_delete diff lay s)) ∧
     (∀ delegate, rootInvariant (snd (setDelegate delegate s)))).
Proof.
  split.
  { intros surfaceId lc ctx h. unfold rootInvariant, ShadowTree_new. simpl.
    rewrite lookup_insert_eq. eauto 10. }
  intros s Hinv.
  assert (Hchildren : ∀ rootChildNodes s0, rootInvariant s0 →
            rootInvariant (snd (complete_rootChildNodes diff lay rootChildNodes s0))).
  { intros rootChildNodes s0 Hinv0.
    apply (rootInvariant_complete_clone_root
             {| ShadowNodeFragment.tag := None; ShadowNodeFragment.rootTag := None;
                ShadowNodeFragment.props := None;
                ShadowNodeFragment.eventEmitter := None;
                ShadowNodeFragment.children := rootChildNodes |}); auto. }
  split; [|split; [|split; [|split; [|split]]]].
  - intros lc ctx.
    set (fragment :=
           {| ShadowNodeFragment.tag := None; ShadowNodeFragment.rootTag := None;
              ShadowNodeFragment.props :=
                Some (Some (ARootProps
                              (RootProps_with (getRootProps (heap s) (rootShadowNode_ s))
                                 lc ctx)));
              ShadowNodeFragment.eventEmitter := None;
              ShadowNodeFragment.children := None |}).
    set (new := fresh (dom (heap s))).
    set (s1 := set_heap (<[new := cloneWith (deref (heap s) (rootShadowNode_ s))
                                    fragment]> (heap s)) s).
    assert (Hrun : snd (measure lay lc ctx s) = snd (layout lay new s1)) by done.
    rewrite Hrun. apply (rootInvariant_heap_preserved s); [done| |done|done].
    eapply heap_preserved_trans; [|apply layout_preserved].
    apply heap_preserved_subseteq, insert_subseteq, not_elem_of_dom, is_fresh.
  - intros lc ctx.
    apply (rootInvariant_complete_clone_root
             {| ShadowNodeFragment.tag := None; ShadowNodeFragment.rootTag := None;
                ShadowNodeFragment.props :=
                  Some (Some (ARootProps
                                (RootProps_with (getRootProps (heap s) (rootShadowNode_ s))
                                   lc ctx)));
                ShadowNodeFragment.eventEmitter := None;
                ShadowNodeFragment.children := None |}); eauto.
  - intros rootChildNodes. by apply Hchildren.
  - intros oldShadowNode newShadowNode.
    rewrite completeByReplacingShadowNode_run. destruct (Nat.eqb _ _); [done|].
    apply Hchildren.
    match goal with
    | |- rootInvariant (snd ?rebuilt) =>
        destruct (replaceAlongAncestors_no_mutation
                    (snd (constructAncestorPath (heap s) oldShadowNode (rootShadowNode_ s)))
                    oldShadowNode newShadowNode None s) as [Hframe Hsub];
        apply (rootInvariant_heap_preserved s);
          [done|by apply heap_preserved_subseteq|by rewrite Hframe|by rewrite Hframe]
    end.
  - assert (Hrun : snd (ShadowTree_delete diff lay s) =
              snd (complete_rootChildNodes diff lay (Some []) s)).
    { unfold ShadowTree_delete, mbind, Op_bind, mret, Op_ret.
      by destruct (complete_rootChildNodes _ _ _ _). }
    rewrite Hrun. by apply Hchildren.
  - intros delegate. by apply (rootInvariant_heap_preserved s);
      [|apply heap_preserved_refl| |].
Qed.

(** ** Targeted replacement, at any depth *)

(** X12: run on its own, [completeByReplacingShadowNode] returns true exactly
    when the ancestor path it constructs is not empty.  With an empty path
    the state is untouched; otherwise the root slot receives a new object
    and every node that existed before is preserved. *)
Theorem completeByReplacingShadowNode_succeeds_iff
    (oldShadowNode newShadowNode : Ref) (s : State) :
  let ancestors :=
    snd (constructAncestorPath (heap s) oldShadowNode (rootShadowNode_ s)) in
  let result := completeByReplacingShadowNode diff lay oldShadowNode newShadowNode s in
  (fst result = true ↔ ancestors ≠ []) ∧
  (ancestors = [] → snd result = s) ∧
  (ancestors ≠ [] →
     (rootShadowNode_ (snd result) ∉ dom (heap s)) ∧
     heap_preserved (heap s) (heap (snd result))).
Proof.
  intros ancestors result. unfold result.
  rewrite completeByReplacingShadowNode_run. fold ancestors.
  destruct ancestors as [|ancestor ancestors'] eqn:Hpath; simpl Nat.eqb; cbv iota.
  { split; [split; [discriminate|done]|]. split; [done|]. done. }
  set (rebuilt := replaceAlongAncestors (ancestor :: ancestors')
                    oldShadowNode newShadowNode None s).
  destruct (complete_rootChildNodes_spec diff lay (fst rebuilt) (snd rebuilt))
    as (Hok & Hroot & Hfresh & _ & Hpres & _).
  destruct (replaceAlongAncestors_no_mutation (ancestor :: ancestors')
              oldShadowNode newShadowNode None s) as [_ Hsub].
  fold rebuilt in Hsub.
  split; [split; [discriminate|done]|]. split; [discriminate|]. intros _. split.
  - rewrite Hroot. intros Hin. apply Hfresh. revert Hin.
    apply subseteq_dom in Hsub. apply Hsub.
  - eapply heap_preserved_trans; [by apply heap_preserved_subseteq|done].
Qed.

(** X13: replacing a grandchild rebuilds both ancestors.  When the path of
    the old node is its parent followed by the root, the call succeeds; the
    committed root has the children of the old root with the parent replaced
    by a new clone, and that clone has the children of the parent with the
    old node replaced by the new one.  The parent itself, like every
    existing node, is preserved. *)
Theorem completeByReplacingShadowNode_grandchild
    (parent oldShadowNode newShadowNode : Ref) (s : State) :
  is_Some (heap s !! rootShadowNode_ s) →
  constructAncestorPath (heap s) oldShadowNode (rootShadowNode_ s) =
    (true, [parent; rootShadowNode_ s]) →
  let parent' := fresh (dom (heap s)) in
  let result := completeByReplacingShadowNode diff lay oldShadowNode newShadowNode s in
  fst result = true ∧
  (parent' ∉ dom (heap s)) ∧
  getChildren (heap (snd result)) (rootShadowNode_ (snd result)) =
    std_replace (getChildren (heap s) (rootShadowNode_ s)) parent parent' ∧
  getChildren (heap (snd result)) parent' =
    std_replace (getChildren (heap s) parent) oldShadowNode newShadowNode ∧
  heap_preserved (heap s) (heap (snd result)).
Proof.
  intros [rootNode Hroot] Hpath parent' result.
  set (fragment1 :=
         {| ShadowNodeFragment.tag := None; ShadowNodeFragment.rootTag := None;
            ShadowNodeFragment.props := None;
            ShadowNodeFragment.eventEmitter := None;
            ShadowNodeFragment.children :=
              Some (std_replace (getChildren (heap s) parent)
                      oldShadowNode newShadowNode) |}).
  set (node1 := cloneWith (deref (heap s) parent) fragment1).
  set (s1 := set_heap (<[parent' := node1]> (heap s)) s).
  assert (Hfresh : parent' ∉ dom (heap s)) by apply is_fresh.
  assert (Hne : parent' ≠ rootShadowNode_ s).
  { intros Heq. apply Hfresh. rewrite Heq. by apply elem_of_dom. }
  assert (Hroot1 : getChildren (heap s1) (rootShadowNode_ s) =
                   getChildren (heap s) (rootShadowNode_ s)).
  { unfold getChildren, deref. simpl. by rewrite lookup_insert_ne. }
  set (children2 := std_replace (getChildren (heap s) (rootShadowNode_ s)) parent parent').
  set (fragment2 :=
         {| ShadowNodeFragment.tag := None; ShadowNodeFragment.rootTag := None;
            ShadowNodeFragment.props := None;
            ShadowNodeFragment.eventEmitter := None;
            ShadowNodeFragment.children := Some children2 |}).
  set (s2 := snd (clone (rootShadowNode_ s) fragment2 s1)).
  assert (Hrebuilt :
            replaceAlongAncestors [parent; rootShadowNode_ s]
              oldShadowNode newShadowNode None s = (Some children2, s2)).
  { simpl. unfold mbind, Op_bind, get, mret, Op_ret. rewrite clone_run.
    fold fragment1 node1 parent' s1. rewrite Hroot1. fold children2 fragment2.
    unfold s2. by destruct (clone _ _ s1). }
  assert (Hresult : result = complete_rootChildNodes diff lay (Some children2) s2).
  { unfold result. rewrite completeByReplacingShadowNode_run, Hpath.
    cbn [snd length Nat.eqb]. by rewrite Hrebuilt. }
  destruct (complete_rootChildNodes_spec diff lay (Some children2) s2)
    as (Hok & Hnew & _ & Hkids & Hpres & _).
  rewrite <- Hresult in Hok, Hnew, Hkids, Hpres.
  assert (Hsub1 : heap s ⊆ heap s1).
  { simpl. by apply insert_subseteq, not_elem_of_dom. }
  assert (Hsub2 : heap s1 ⊆ heap s2).
  { unfold s2. rewrite clone_run. simpl.
    apply insert_subseteq, not_elem_of_dom, is_fresh. }
  split; [done|]. split; [done|]. split; [by rewrite Hnew, Hkids|]. split.
  - rewrite (heap_preserved_getChildren _ _ parent' node1 Hpres); [done|].
    eapply lookup_weaken; [|exact Hsub2]. simpl. apply lookup_insert_eq.
  - eapply heap_preserved_trans; [|exact Hpres].
    apply heap_preserved_subseteq. by etrans.
Qed.

(** ** The delegate and the surface id *)

(** X14: a delegate registration takes effect at the next commit.  After
    [setDelegate] with a delegate, the calls of a [complete] with a child
    list end with the notification of that delegate for this surface; after
    [setDelegate] with a null pointer no delegate is notified. *)
Theorem setDelegate_then_complete
    (rootChildNodes : option (list Ref)) (s : State) :
  (∀ delegate,
     ∃ mutations,
       last (calls (complete_rootChildNodes diff lay rootChildNodes)
               (snd (setDelegate (Some delegate) s))) =
       Some (EvShadowTreeDidCommit delegate (surfaceId_ s) mutations)) ∧
  (∀ ev,
     ev ∈ calls (complete_rootChildNodes diff lay rootChildNodes)
            (snd (setDelegate None s)) →
     is_toggle ev = true ∨ is_onLayout ev = true).
Proof.
  split.
  - intros delegate.
    destruct (complete_rootChildNodes_spec diff lay rootChildNodes
                (snd (setDelegate (Some delegate) s))) as (_ & _ & _ & _ & _ & ->).
    eexists. simpl delegate_. rewrite !app_assoc. by rewrite last_snoc.
  - intros ev.
    destruct (complete_rootChildNodes_spec diff lay rootChildNodes
                (snd (setDelegate None s))) as (_ & _ & _ & _ & _ & ->).
    simpl delegate_. rewrite app_nil_r. intros Hev.
    apply elem_of_app in Hev as [Hev|Hev].
    + left. revert ev Hev. apply Forall_forall, toggleEventEmitters_calls_toggle.
    + right. revert ev Hev. apply Forall_forall, emitLayoutEvents_calls_onLayout.
Qed.

(** X15: the surface id and the registered delegate survive every method.
    [getSurfaceId] and [getDelegate] return after [measure],
    [constraintLayout], either [complete], [completeByReplacingShadowNode]
    and the destructor's commit what they returned before; [getDelegate]
    returns what the last [setDelegate] stored, and [setDelegate] does not
    change the surface id or the root. *)
Theorem surface_and_delegate_kept (s : State) :
  let kept (s' : State) :=
    fst (getSurfaceId s') = fst (getSurfaceId s) ∧
    fst (getDelegate s') = fst (getDelegate s) in
  (∀ lc ctx, kept (snd (measure lay lc ctx s))) ∧
  (∀ lc ctx, kept (snd (constraintLayout diff lay lc ctx s))) ∧
  (∀ old new, kept (snd (complete diff lay old new s))) ∧
  (∀ rootChildNodes, kept (snd (complete_rootChildNodes diff lay rootChildNodes s))) ∧
  (∀ old new, kept (snd (completeByReplacingShadowNode diff lay old new s))) ∧
  kept (snd (ShadowTree_delete diff lay s)) ∧
  (∀ delegate,
     fst (getDelegate (snd (setDelegate delegate s))) = delegate ∧
     fst (getSurfaceId (snd (setDelegate delegate s))) = fst (getSurfaceId s) ∧
     fst (getRootShadowNode (snd (setDelegate delegate s))) = fst (getRootShadowNode s)).
Proof.
  intros kept. unfold kept.
  assert (Hcomplete : ∀ old new s0,
            surfaceId_ (snd (complete diff lay old new s0)) = surfaceId_ s0 ∧
            delegate_ (snd (complete diff lay old new s0)) = delegate_ s0).
  { intros old new s0. destruct (complete_frame old new s0) as (? & ? & _). done. }
  assert (Hchildren : ∀ rootChildNodes s0,
            surfaceId_ (snd (complete_rootChildNodes diff lay rootChildNodes s0))
              = surfaceId_ s0 ∧
            delegate_ (snd (complete_rootChildNodes diff lay rootChildNodes s0))
              = delegate_ s0).
  { intros rootChildNodes s0.
    destruct (complete_clone_root
                {| ShadowNodeFragment.tag := None; ShadowNodeFragment.rootTag := None;
                   ShadowNodeFragment.props := None;
                   ShadowNodeFragment.eventEmitter := None;
                   ShadowNodeFragment.children := rootChildNodes |} s0)
      as (_ & _ & _ & ? & ? & _). done. }
  split; [done|]. split.
  { intros lc ctx.
    destruct (complete_clone_root
                {| ShadowNodeFragment.tag := None; ShadowNodeFragment.rootTag := None;
                   ShadowNodeFragment.props :=
                     Some (Some (ARootProps
                                   (RootProps_with
                                      (getRootProps (heap s) (rootShadowNode_ s)) lc ctx)));
                   ShadowNodeFragment.eventEmitter := None;
                   ShadowNodeFragment.children := None |} s)
      as (_ & _ & _ & ? & ? & _). done. }
  split; [intros old new; apply Hcomplete|].
  split; [intros rootChildNodes; apply Hchildren|].
  split.
  { intros old new. rewrite completeByReplacingShadowNode_run.
    destruct (Nat.eqb _ _); [done|].
    destruct (replaceAlongAncestors_no_mutation
                (snd (constructAncestorPath (heap s) old (rootShadowNode_ s)))
                old new None s) as [Hframe _].
    match goal with
    | |- context [complete_rootChildNodes diff lay ?cs ?s2] =>
        destruct (Hchildren cs s2) as [Hsid Hdel]
    end.
    simpl in *. rewrite Hsid, Hdel, Hframe. done. }
  split; [|done].
  assert (Hrun : snd (ShadowTree_delete diff lay s) =
            snd (complete_rootChildNodes diff lay (Some []) s)).
  { unfold ShadowTree_delete, mbind, Op_bind, mret, Op_ret.
    by destruct (complete_rootChildNodes _ _ _ _). }
  rewrite Hrun. apply Hchildren.
Qed.

(** X16: replacing a direct child of the root, whatever the child list.
    When the path of the old node is the root alone, the committed root has
    a child list of the same length in which every occurrence of the old
    node is the new node and every other position holds the child it held
    before. *)
Theorem completeByReplacingShadowNode_child
    (oldShadowNode newShadowNode : Ref) (s : State) :
  constructAncestorPath (heap s) oldShadowNode (rootShadowNode_ s) =
    (true, [rootShadowNode_ s]) →
  let before := getChildren (heap s) (rootShadowNode_ s) in
  let result := completeByReplacingShadowNode diff lay oldShadowNode newShadowNode s in
  let after := getChildren (heap (snd result)) (rootShadowNode_ (snd result)) in
  fst result = true ∧
  after = std_replace before oldShadowNode newShadowNode ∧
  length after = length before ∧
  (∀ i c, before !! i = Some c → c ≠ oldShadowNode → after !! i = Some c) ∧
  (∀ i, before !! i = Some oldShadowNode → after !! i = Some newShadowNode).
Proof.
  intros Hpath before result after.
  set (children1 := std_replace before oldShadowNode newShadowNode).
  set (fragment1 :=
         {| ShadowNodeFragment.tag := None; ShadowNodeFragment.rootTag := None;
            ShadowNodeFragment.props := None;
            ShadowNodeFragment.eventEmitter := None;
            ShadowNodeFragment.children := Some children1 |}).
  set (s1 := snd (clone (rootShadowNode_ s) fragment1 s)).
  assert (Hrebuilt :
            replaceAlongAncestors [rootShadowNode_ s]
              oldShadowNode newShadowNode None s = (Some children1, s1)).
  { simpl. unfold mbind, Op_bind, get, mret, Op_ret.
    fold before children1 fragment1. unfold s1. by destruct (clone _ _ s). }
  assert (Hresult : result = complete_rootChildNodes diff lay (Some children1) s1).
  { unfold result. rewrite completeByReplacingShadowNode_run, Hpath.
    cbn [snd length Nat.eqb]. by rewrite Hrebuilt. }
  destruct (complete_rootChildNodes_spec diff lay (Some children1) s1)
    as (Hok & Hnew & _ & Hkids & _).
  rewrite <- Hresult in Hok, Hnew, Hkids.
  assert (Hafter : after = children1) by (unfold after; by rewrite Hnew, Hkids).
  split; [done|]. split; [done|]. rewrite Hafter. unfold children1, std_replace.
  split; [apply length_map|]. split.
  - intros i c Hi Hne. apply list_lookup_fmap_Some. exists c.
    by rewrite decide_False.
  - intros i Hi. apply list_lookup_fmap_Some. exists oldShadowNode.
    by rewrite decide_True.
Qed.

End Further.

(** ** The further properties on the sample surfaces *)

Lemma emitLayoutEvents_calls_accounted_witness :
  ∃ m, m ∈ [createdView; insertedView] ∧ (type m = Insert ∨ type m = Update).
Proof.
  destruct (emitLayoutEvents_calls_accounted [createdView; insertedView] freshSurface
              (EvOnLayout (viewEmitter 7%Z) metricsA))
    as (m & e & Hm & Hty & _).
  - vm_compute. apply list_elem_of_here.
  - exists m. split; [exact Hm|exact Hty].
Defined.

Lemma toggleEventEmitters_split_witness :
  calls (toggleEventEmitters ([createdView] ++ [deletedView])) freshSurface =
  calls (toggleEventEmitters [createdView]) freshSurface ++
  calls (toggleEventEmitters [deletedView]) freshSurface.
Proof.
  apply (proj2 (toggleEventEmitters_split [createdView] [deletedView] freshSurface)).
  left. reflexivity.
Defined.

Lemma commit_same_base_twice_witness :
  fst (commit 15 12 [] (snd (commit 15 13 [] mountedSurface))) = false.
Proof.
  pose proof (commit_same_base_twice 15 13 12 [] [] mountedSurface) as Htwice.
  cbv zeta in Htwice. destruct Htwice as (_ & Hloser & _).
  - vm_compute. reflexivity.
  - lia.
  - rewrite Hloser. reflexivity.
Defined.

Lemma complete_same_base_twice_witness :
  fst (complete flatDiff boxLayout 15 12
         (snd (complete flatDiff boxLayout 15 13 mountedSurface))) = false.
Proof.
  pose proof (complete_same_base_twice flatDiff boxLayout 15 13 12 mountedSurface)
    as Htwice.
  cbv zeta in Htwice. destruct Htwice as (_ & _ & Hloser & _).
  - vm_compute. reflexivity.
  - lia.
  - exact Hloser.
Defined.

Lemma complete_phases_witness :
  ∃ toggles layouts mutations,
    calls (complete flatDiff boxLayout 15 13) mountedSurface =
      toggles ++ layouts ++ [EvShadowTreeDidCommit 0 1%Z mutations].
Proof.
  destruct (complete_phases flatDiff boxLayout 15 13 mountedSurface)
    as (toggles & layouts & mutations & Hcalls & _).
  - vm_compute. reflexivity.
  - exists toggles, layouts, mutations. exact Hcalls.
Defined.

Lemma complete_rejected_seals_candidate_witness :
  fst (complete flatDiff boxLayout 14 13 mountedSurface) = false ∧
  sealed_ (deref (heap mountedSurface) 13) = false ∧
  sealed_ (deref (heap (snd (complete flatDiff boxLayout 14 13 mountedSurface))) 13) = true.
Proof.
  pose proof (complete_rejected_seals_candidate flatDiff boxLayout 14 13
                (sampleNode 13%Z [] false) mountedSurface) as Hrejected.
  cbv zeta in Hrejected. destruct Hrejected as (Hfalse & _ & _ & _ & Hsealed & _).
  - vm_compute. lia.
  - vm_compute. reflexivity.
  - split; [exact Hfalse|]. split; [vm_compute; reflexivity|exact Hsealed].
Defined.

Lemma rootInvariant_kept_witness : rootInvariant mountedSurface.
Proof.
  destruct (rootInvariant_kept flatDiff boxLayout) as [Hnew Hkept].
  destruct (Hkept freshSurface) as (_ & _ & Hcomplete & _).
  - exact (Hnew 1%Z sampleConstraints sampleContext _).
  - exact (Hcomplete (Some [10; 11; 12])).
Defined.

Lemma completeByReplacingShadowNode_succeeds_iff_witness :
  fst (completeByReplacingShadowNode flatDiff boxLayout 21 23 nestedSurface) = true.
Proof.
  apply (completeByReplacingShadowNode_succeeds_iff flatDiff boxLayout 21 23
           nestedSurface).
  vm_compute. discriminate.
Defined.

Lemma completeByReplacingShadowNode_grandchild_witness :
  getChildren
    (heap (snd (completeByReplacingShadowNode flatDiff boxLayout 21 23 nestedSurface)))
    (fresh (dom (heap nestedSurface)))
  = std_replace (getChildren (heap nestedSurface) 20) 21 23.
Proof.
  pose proof (completeByReplacingShadowNode_grandchild flatDiff boxLayout 20 21 23
                nestedSurface) as Hgrandchild.
  cbv zeta in Hgrandchild. destruct Hgrandchild as (_ & _ & _ & Hparent & _).
  - vm_compute. eexists. reflexivity.
  - vm_compute. reflexivity.
  - exact Hparent.
Defined.

Lemma setDelegate_then_complete_witness :
  is_toggle (EvDisable (Some (viewEmitter 10%Z))) = true ∨
  is_onLayout (EvDisable (Some (viewEmitter 10%Z))) = true.
Proof.
  apply (proj2 (setDelegate_then_complete flatDiff boxLayout (Some []) mountedSurface)).
  vm_compute. apply list_elem_of_here.
Defined.

Lemma completeByReplacingShadowNode_child_witness :
  getChildren
    (heap (snd (completeByReplacingShadowNode flatDiff boxLayout 12 13 mountedSurface)))
    (rootShadowNode_
       (snd (completeByReplacingShadowNode flatDiff boxLayout 12 13 mountedSurface)))
  = std_replace (getChildren (heap mountedSurface) 15) 12 13.
Proof.
  pose proof (completeByReplacingShadowNode_child flatDiff boxLayout 12 13
                mountedSurface) as Hchild.
  cbv zeta in Hchild. destruct Hchild as (_ & Hafter & _).
  - vm_compute. reflexivity.
  - exact Hafter.
Defined.
